(** * ProjetoEE: discounted payback, NPV and the comparison of two alternatives

    A shallow embedding of [ProjetoEE.py].  The script reads two cash-flow
    columns and a discount rate, computes for each column the net present
    value, the internal rate of return and the discounted payback period,
    and builds a table that names the chosen alternative per metric.

    Numbers.  The script computes on IEEE binary64 floats.  Here a float is
    an extended rational: a finite value is an exact rational (rounding
    error and overflow are abstracted away, and the two zeros are
    identified), and the special values +inf, -inf and NaN keep the IEEE
    rules for arithmetic and comparison, because the script returns
    [float('inf')] and compares values that may be NaN. *)

From Stdlib Require Import String QArith Qpower Qround Qabs ZArith List Bool Lia Lqa.
Import ListNotations.
Open Scope Q_scope.

(** ** Floats as extended rationals *)

Inductive fval : Type :=
| Fin (q : Q)
| PInf
| NInf
| NaN.

(** Equality of floats up to the representation of the rational. *)
Definition feq (x y : fval) : Prop :=
  match x, y with
  | Fin a, Fin b => a == b
  | PInf, PInf | NInf, NInf | NaN, NaN => True
  | _, _ => False
  end.

Definition Qlt_bool (a b : Q) : bool := negb (Qle_bool b a).

Definition isna (x : fval) : bool :=
  match x with NaN => true | _ => false end.

Definition isfinite (x : fval) : bool :=
  match x with Fin _ => true | _ => false end.

(** [-x] *)
Definition fneg (x : fval) : fval :=
  match x with
  | Fin a => Fin (- a)
  | PInf => NInf
  | NInf => PInf
  | NaN => NaN
  end.

(** [x + y]: inf + -inf is NaN. *)
Definition fadd (x y : fval) : fval :=
  match x, y with
  | NaN, _ | _, NaN => NaN
  | Fin a, Fin b => Fin (a + b)
  | PInf, NInf | NInf, PInf => NaN
  | PInf, _ | _, PInf => PInf
  | NInf, _ | _, NInf => NInf
  end.

(** The sign of a rational, as an infinity; the sign of 0 is NaN (0/0). *)
Definition inf_of_sign (a : Q) : fval :=
  if Qlt_bool 0 a then PInf else if Qlt_bool a 0 then NInf else NaN.

(** [x / y] on numpy floats: a zero divisor raises nothing, it gives an
    infinity with the sign of the dividend (the zero is taken as +0), or
    NaN for 0/0. *)
Definition fdiv (x y : fval) : fval :=
  match x, y with
  | NaN, _ | _, NaN => NaN
  | Fin a, Fin b => if Qeq_bool b 0 then inf_of_sign a else Fin (a / b)
  | Fin _, _ => Fin 0
  | PInf, Fin b => if Qlt_bool b 0 then NInf else PInf
  | NInf, Fin b => if Qlt_bool b 0 then PInf else NInf
  | _, _ => NaN
  end.

(** [x < y]: false as soon as one side is NaN. *)
Definition flt (x y : fval) : bool :=
  match x, y with
  | NaN, _ | _, NaN => false
  | Fin a, Fin b => Qlt_bool a b
  | NInf, NInf | PInf, _ => false
  | NInf, _ => true
  | Fin _, PInf => true
  | Fin _, NInf => false
  end.

(** [x > y] *)
Definition fgt (x y : fval) : bool := flt y x.

(** [x <= y] *)
Definition fle (x y : fval) : bool :=
  match x, y with
  | NaN, _ | _, NaN => false
  | Fin a, Fin b => Qle_bool a b
  | NInf, _ | _, PInf => true
  | _, _ => false
  end.

(** Round half to even, to the nearest integer. *)
Definition rint (q : Q) : Z :=
  let f := Qfloor q in
  let d := q - inject_Z f in
  if Qlt_bool d (1 # 2) then f
  else if Qlt_bool (1 # 2) d then (f + 1)%Z
  else if Z.even f then f else (f + 1)%Z.

(** [round(x, 2)]: an infinity and NaN round to themselves. *)
Definition round2 (q : Q) : Q := inject_Z (rint (q * 100)) / 100.

Definition fround2 (x : fval) : fval :=
  match x with
  | Fin q => Fin (round2 q)
  | _ => x
  end.

(** ** numpy and pandas *)

(** [np.cumsum] on an array. *)
Fixpoint np_cumsum_from (acc : fval) (l : list fval) : list fval :=
  match l with
  | [] => []
  | x :: l' => let acc' := fadd acc x in acc' :: np_cumsum_from acc' l'
  end.

Definition np_cumsum (l : list fval) : list fval :=
  match l with
  | [] => []
  | x :: l' => x :: np_cumsum_from x l'
  end.

(** [np.cumsum] of a pandas Series is the Series' own [cumsum], which skips
    NaN: a NaN entry counts as 0 in the running sum and is put back as NaN
    in the result. *)
Definition cumsum (values : list fval) : list fval :=
  let vals := map (fun x => if isna x then Fin 0 else x) values in
  map (fun '(x, r) => if isna x then NaN else r)
      (combine values (np_cumsum vals)).

(** The index of a column of n rows: the periods 0 .. n-1, contiguous and
    without gaps, as the data model has them. *)
Definition index (n : nat) : list nat := seq 0 n.

Definition of_nat (n : nat) : Q := inject_Z (Z.of_nat n).

(** ** numpy_financial *)

Module npf.

(** [npf.pv(rate, nper, pmt, fv, when)] at one period. *)
Definition pv1 (rate : Q) (nper : nat) (pmt fv when : Q) : fval :=
  let temp := (1 + rate) ^ Z.of_nat nper in
  let fact := if Qeq_bool rate 0 then of_nat nper
              else (1 + rate * when) * (temp - 1) / rate in
  fdiv (Fin (- (fv + pmt * fact))) (Fin temp).

(** [npf.pv(rate=rate, pmt=pmt, nper=nper, fv=fv)] on columns; [when]
    defaults to 'end', that is 0. *)
Definition pv (rate : Q) (nper : list nat) (pmt : Q) (fv : list Q)
  : list fval :=
  map (fun '(n, f) => pv1 rate n pmt f 0) (combine nper fv).

(** [npf.npv(rate, values)]:
    [(values / (1+rate)**np.arange(0, len(values))).sum()]. *)
Definition npv (rate : Q) (values : list Q) : fval :=
  fold_left fadd
    (map (fun '(t, v) => fdiv (Fin v) (Fin ((1 + rate) ^ Z.of_nat t)))
         (combine (index (length values)) values))
    (Fin 0).

End npf.

(** ** discounted_payback_period *)

(** The three columns of [cf_df], row by row. *)
Definition DiscountedCashFlows (rate : Q) (cash_flows_df : list Q)
  : list fval :=
  npf.pv rate (index (length cash_flows_df)) 0 (map Qopp cash_flows_df).

Definition CumulativeDiscountedCashFlows (rate : Q) (cash_flows_df : list Q)
  : list fval :=
  cumsum (DiscountedCashFlows rate cash_flows_df).

(** [cf_df[cf_df.CumulativeDiscountedCashFlows < 0].index.values] *)
Definition negative_cash_flows (rate : Q) (cash_flows_df : list Q)
  : list nat :=
  map fst
      (filter (fun '(_, c) => flt c (Fin 0))
              (combine (index (length cash_flows_df))
                       (CumulativeDiscountedCashFlows rate cash_flows_df))).

(** [max()] of a non-empty array of labels.  On the index 0 .. n-1 of a
    non-empty column, [cf_df.index.max()] is n-1. *)
Definition index_max (y : nat) (ys : list nat) : nat := fold_left Nat.max ys y.

(** A label lookup [column[label]] raises KeyError on a missing label:
    [None]. *)
Definition loc (column : list fval) (label : nat) : option fval :=
  nth_error column label.

(** The function returns a float, [Some]; [None] is an exception raised
    by one of the two label lookups. *)
Definition discounted_payback_period (rate : Q) (cash_flows_df : list Q)
  : option fval :=
  let dcf := DiscountedCashFlows rate cash_flows_df in
  let cum := CumulativeDiscountedCashFlows rate cash_flows_df in
  match negative_cash_flows rate cash_flows_df with
  | [] => Some PInf
  | y :: ys =>
      let final_full_year := index_max y ys in
      if (final_full_year =? Nat.pred (length cash_flows_df))%nat
      then Some PInf
      else
        match loc cum final_full_year, loc dcf (final_full_year + 1) with
        | Some c, Some d =>
            let fractional_yr := fdiv (fneg c) d in
            Some (fadd (Fin (of_nat final_full_year)) fractional_yr)
        | _, _ => None
        end
  end.

(** ** compare_alternatives *)

(** The data frame the comparison returns: three columns over the rows
    TIR, VPL and Payback. *)
Record frame : Type := {
  Alternativa_A : list fval;
  Alternativa_B : list fval;
  Alternativa_Escolhida : list string
}.

Definition compare_alternatives (tir_a vpl_a payback_a tir_b vpl_b payback_b : fval)
  : frame :=
  {| Alternativa_A := [tir_a; vpl_a; payback_a];
     Alternativa_B := [tir_b; vpl_b; payback_b];
     Alternativa_Escolhida :=
       [ if fgt tir_a tir_b then "A" else "B";
         if fgt vpl_a vpl_b then "A" else "B";
         if flt payback_a payback_b then "A" else "B" ]%string |}.

(** The rows of the table. *)
Inductive metric : Type := TIR | VPL | Payback.

Definition row (m : metric) : nat :=
  match m with TIR => 0 | VPL => 1 | Payback => 2 end%nat.

(** The label in column 'Alternativa Escolhida' at a row. *)
Definition escolhida (f : frame) (m : metric) : string :=
  nth (row m) (Alternativa_Escolhida f) EmptyString.

(** ** The script *)

(** The table of the data editor: the two cash-flow columns. *)
Record DataFrame : Type := { col_A : list Q; col_B : list Q }.

Section Script.

(** [npf.irr], the root finder of numpy_financial: the rate at which the
    net present value of a series is 0, NaN when it finds none.  It is an
    external solver, and the script is parameterised by it. *)
Variable irr : list Q -> fval.

(** [df_tma.iat[0, 0]] and [df]. *)
Variable tma : Q.
Variable df : DataFrame.

Definition vpl_a : fval := fround2 (npf.npv tma (col_A df)).
Definition tir_a : fval := irr (col_A df).
Definition payback_a : option fval :=
  option_map fround2 (discounted_payback_period tma (col_A df)).

Definition vpl_b : fval := fround2 (npf.npv tma (col_B df)).
Definition tir_b : fval := irr (col_B df).
Definition payback_b : option fval :=
  option_map fround2 (discounted_payback_period tma (col_B df)).

(** An exception in either payback stops the script: [None]. *)
Definition resultado_comparacao : option frame :=
  match payback_a, payback_b with
  | Some pa, Some pb =>
      Some (compare_alternatives tir_a vpl_a pa tir_b vpl_b pb)
  | _, _ => None
  end.

End Script.

(** The table the editor starts from, and the rate it starts from. *)
Definition data : DataFrame :=
  {| col_A := [-200; 100; 100; 100; 100];
     col_B := [-200; 50; 50; 50; 1000] |}.

Definition tma_default : Q := 1 # 10.

(** ** The vocabulary of the specification *)

Module Spec.

(** dcf[t] = series[t] / (1+r)^t *)
Definition dcf (r : Q) (series : list Q) (t : nat) : Q :=
  nth t series 0 / (1 + r) ^ Z.of_nat t.

(** cum[t] = sum for k = 0..t of dcf[k] *)
Fixpoint cum (r : Q) (series : list Q) (t : nat) : Q :=
  match t with
  | O => dcf r series 0
  | S t' => cum r series t' + dcf r series t
  end.

(** The direct summation of the discounted terms over t = 0..N. *)
Definition NPV (r : Q) (series : list Q) : Q :=
  cum r series (Nat.pred (length series)).

(** t is the last period with cum[t] < 0. *)
Definition last_negative (r : Q) (series : list Q) (t : nat) : Prop :=
  (t < length series)%nat /\ cum r series t < 0 /\
  forall u, (t < u < length series)%nat -> 0 <= cum r series u.

(** The sign of a flow: -1, 0 or 1. *)
Definition sgn (q : Q) : Z := Z.sgn (Qnum q).

(** The number of sign changes along a series, zeros skipped; [prev] is
    the sign of the last non-zero flow seen, 0 before the first. *)
Fixpoint sign_changes_from (prev : Z) (series : list Q) : nat :=
  match series with
  | [] => 0
  | x :: rest =>
      if (sgn x =? 0)%Z then sign_changes_from prev rest
      else if ((prev =? 0) || (prev =? sgn x))%Z
           then sign_changes_from (sgn x) rest
           else S (sign_changes_from (sgn x) rest)
  end.

Definition sign_changes (series : list Q) : nat :=
  sign_changes_from 0 series.

End Spec.

(** ** The finite regime, on rationals

    When 1 + rate is not 0 every discounted flow is finite; the columns
    are then the images of these rational columns. *)

Definition dcfQ (rate : Q) (cash_flows_df : list Q) : list Q :=
  map (fun '(n, f) =>
         let temp := (1 + rate) ^ Z.of_nat n in
         let fact := if Qeq_bool rate 0 then of_nat n
                     else (1 + rate * 0) * (temp - 1) / rate in
         - (f + 0 * fact) / temp)
      (combine (index (length cash_flows_df)) (map Qopp cash_flows_df)).

Fixpoint cumQ_from (acc : Q) (l : list Q) : list Q :=
  match l with
  | [] => []
  | x :: l' => (acc + x) :: cumQ_from (acc + x) l'
  end.

Definition cumQ (l : list Q) : list Q :=
  match l with
  | [] => []
  | x :: l' => x :: cumQ_from x l'
  end.

(** ValuationResult: the three metrics of one alternative, and the
    comparison of two of them. *)
Record ValuationResult : Type := {
  irr_of : fval;
  npv_of : fval;
  payback_of : fval
}.

Definition compare (a b : ValuationResult) : frame :=
  compare_alternatives (irr_of a) (npv_of a) (payback_of a)
                       (irr_of b) (npv_of b) (payback_of b).

Definition value (m : metric) (x : ValuationResult) : fval :=
  match m with
  | TIR => irr_of x
  | VPL => npv_of x
  | Payback => payback_of x
  end.

(** The specification's order on a metric: a strictly greater IRR or NPV
    is better, a strictly smaller payback is better. *)
Definition better (m : metric) (a b : fval) : bool :=
  match m with
  | Payback => flt a b
  | _ => flt b a
  end.

(** The valuation of scenario 3, [100, 100, 100] at rate 0.1: no internal
    rate of return, a net present value of 273.55 and no negative period;
    and the valuation of scenario 1. *)
Definition scenario_3 : ValuationResult :=
  {| irr_of := NaN; npv_of := Fin 273.55; payback_of := PInf |}.

Definition scenario_1 : ValuationResult :=
  {| irr_of := Fin 0.3490344566; npv_of := Fin 116.99; payback_of := Fin 2.35 |}.

(** A solver that knows the first column of [data] and nothing else. *)
Definition irr_of_data (series : list Q) : fval :=
  match series with
  | [a; b; c; d; e] =>
      if Qeq_bool a (-200) && Qeq_bool b 100 && Qeq_bool c 100
         && Qeq_bool d 100 && Qeq_bool e 100
      then Fin 0.3490344566 else NaN
  | _ => NaN
  end.

(** Two alternatives whose net present values differ by less than half a
    cent. *)
Definition close_call : DataFrame :=
  {| col_A := [0.05; 0]; col_B := [0; 0.05] |}.

(** The valuation of scenario 2, [-200, 50, 50, 50, 1000] at rate 0.1. *)
Definition scenario_2 : ValuationResult :=
  {| irr_of := Fin 0.6366353449; npv_of := Fin 607.36; payback_of := Fin 3.11 |}.

(** ** What discounted_payback_period returns, in the specification's words

    The three outcomes of steps 3 to 6 of the algorithm. *)

Inductive payback_outcome (r : Q) (series : list Q) : option fval -> Prop :=
| no_negative_period :
    (forall t, (t < length series)%nat -> 0 <= Spec.cum r series t) ->
    payback_outcome r series (Some PInf)
| never_recovered (t : nat) :
    Spec.last_negative r series t ->
    S t = length series ->
    payback_outcome r series (Some PInf)
| interpolated (t : nat) (v : Q) :
    Spec.last_negative r series t ->
    (S t < length series)%nat ->
    v == of_nat t + - Spec.cum r series t / Spec.dcf r series (S t) ->
    payback_outcome r series (Some (Fin v)).

(** ** The shapes of a series with one sign change *)

(** Outlays up to period m, inflows from m on: the conventional
    investment. *)
Definition outlays_then_inflows (m : nat) (s : list Q) : Prop :=
  forall k, ((k < m)%nat -> nth k s 0 <= 0) /\ ((m <= k)%nat -> 0 <= nth k s 0).

(** Inflows up to period m, outlays from m on. *)
Definition inflows_then_outlays (m : nat) (s : list Q) : Prop :=
  forall k, ((k < m)%nat -> 0 <= nth k s 0) /\ ((m <= k)%nat -> nth k s 0 <= 0).

(** A flow is zero or has sign [p]. *)
Definition signed (p : Z) (x : Q) : Prop := Spec.sgn x = 0%Z \/ Spec.sgn x = p.

(** * Properties *)

(** ** Comparisons on rationals and floats *)

Lemma Qlt_bool_iff (a b : Q) : Qlt_bool a b = true <-> a < b.
Proof.
  unfold Qlt_bool. rewrite negb_true_iff.
  split; intro H.
  - apply Qnot_le_lt. intro Hle. apply Qle_bool_iff in Hle. congruence.
  - destruct (Qle_bool b a) eqn:E; [|reflexivity].
    apply Qle_bool_iff in E. exfalso. exact (Qlt_not_le _ _ H E).
Qed.

Lemma Qlt_bool_false_iff (a b : Q) : Qlt_bool a b = false <-> b <= a.
Proof.
  unfold Qlt_bool. rewrite negb_false_iff. apply Qle_bool_iff.
Qed.

Lemma flt_Fin (a b : Q) : flt (Fin a) (Fin b) = true <-> a < b.
Proof. apply Qlt_bool_iff. Qed.

Lemma flt_Fin_false (a b : Q) : flt (Fin a) (Fin b) = false <-> b <= a.
Proof. apply Qlt_bool_false_iff. Qed.

Lemma flt_irrefl (x : fval) : flt x x = false.
Proof.
  destruct x; simpl; try reflexivity.
  apply Qlt_bool_false_iff. apply Qle_refl.
Qed.

Lemma flt_asym (x y : fval) : flt x y = true -> flt y x = false.
Proof.
  destruct x, y; simpl; try congruence; intros H.
  apply Qlt_bool_iff in H. apply Qlt_bool_false_iff. apply Qlt_le_weak, H.
Qed.

(** ** The columns of cf_df have one row per period *)

Lemma np_cumsum_from_length (l : list fval) :
  forall acc, length (np_cumsum_from acc l) = length l.
Proof.
  induction l as [|x l IH]; intros acc; simpl; [reflexivity|].
  now rewrite IH.
Qed.

Lemma np_cumsum_length (l : list fval) : length (np_cumsum l) = length l.
Proof.
  destruct l; simpl; [reflexivity|]. now rewrite np_cumsum_from_length.
Qed.

Lemma cumsum_length (l : list fval) : length (cumsum l) = length l.
Proof.
  unfold cumsum.
  rewrite length_map, length_combine, np_cumsum_length, length_map.
  apply Nat.min_id.
Qed.

Lemma DiscountedCashFlows_length (rate : Q) (s : list Q) :
  length (DiscountedCashFlows rate s) = length s.
Proof.
  unfold DiscountedCashFlows, npf.pv, index.
  rewrite length_map, length_combine, length_seq, length_map.
  apply Nat.min_id.
Qed.

Lemma CumulativeDiscountedCashFlows_length (rate : Q) (s : list Q) :
  length (CumulativeDiscountedCashFlows rate s) = length s.
Proof.
  unfold CumulativeDiscountedCashFlows.
  now rewrite cumsum_length, DiscountedCashFlows_length.
Qed.

(** ** The rows selected by the mask, and their largest label *)

Lemma in_combine_seq {X : Type} (l : list X) :
  forall a t x,
    In (t, x) (combine (seq a (length l)) l) <->
    (a <= t)%nat /\ nth_error l (t - a) = Some x.
Proof.
  induction l as [|y l IH]; intros a t x; simpl.
  - split; [tauto|]. intros [_ H]. destruct (t - a)%nat; discriminate.
  - rewrite IH. split.
    + intros [H | [Hle H]].
      * injection H as <- <-. rewrite Nat.sub_diag. split; [lia|reflexivity].
      * split; [lia|]. replace (t - a)%nat with (S (t - S a)) by lia. exact H.
    + intros [Hle H]. destruct (Nat.eq_dec a t) as [<-|Hne].
      * rewrite Nat.sub_diag in H. simpl in H. left. congruence.
      * right. split; [lia|].
        replace (t - a)%nat with (S (t - S a)) in H by lia. exact H.
Qed.

Lemma in_negative_cash_flows (rate : Q) (s : list Q) (t : nat) :
  In t (negative_cash_flows rate s) <->
  exists c, nth_error (CumulativeDiscountedCashFlows rate s) t = Some c /\
            flt c (Fin 0) = true.
Proof.
  unfold negative_cash_flows, index.
  rewrite <- (CumulativeDiscountedCashFlows_length rate s).
  rewrite in_map_iff. split.
  - intros [[t' c] [Ht Hin]]. simpl in Ht. subst t'.
    apply filter_In in Hin. destruct Hin as [Hin Hc].
    apply in_combine_seq in Hin. rewrite Nat.sub_0_r in Hin.
    exists c. tauto.
  - intros [c [Hnth Hc]]. exists (t, c). split; [reflexivity|].
    apply filter_In. split; [|exact Hc].
    apply in_combine_seq. rewrite Nat.sub_0_r. split; [lia|exact Hnth].
Qed.

Lemma in_negative_cash_flows_lt (rate : Q) (s : list Q) (t : nat) :
  In t (negative_cash_flows rate s) -> (t < length s)%nat.
Proof.
  intros H. apply in_negative_cash_flows in H. destruct H as [c [Hc _]].
  rewrite <- (CumulativeDiscountedCashFlows_length rate s).
  apply nth_error_Some. congruence.
Qed.

Lemma index_max_ge_init (ys : list nat) : forall y, (y <= index_max y ys)%nat.
Proof.
  unfold index_max. induction ys as [|z ys IH]; intros y; simpl; [lia|].
  specialize (IH (Nat.max y z)). lia.
Qed.

Lemma index_max_upper (ys : list nat) :
  forall y z, In z (y :: ys) -> (z <= index_max y ys)%nat.
Proof.
  unfold index_max. induction ys as [|w ys IH]; intros y z Hin; simpl.
  - destruct Hin as [<-|[]]. lia.
  - destruct Hin as [<-|[<-|Hin]].
    + pose proof (index_max_ge_init ys (Nat.max y w)) as H.
      unfold index_max in H. lia.
    + pose proof (index_max_ge_init ys (Nat.max y w)) as H.
      unfold index_max in H. lia.
    + apply IH. right. exact Hin.
Qed.

Lemma index_max_in (ys : list nat) :
  forall y, In (index_max y ys) (y :: ys).
Proof.
  unfold index_max. induction ys as [|w ys IH]; intros y; simpl.
  - left. reflexivity.
  - destruct (IH (Nat.max y w)) as [H|H].
    + rewrite <- H. destruct (Nat.max_spec y w) as [[_ E]|[_ E]];
        rewrite E; auto.
    + right. right. exact H.
Qed.

(** ** discounted_payback_period raises no exception *)

Lemma discounted_payback_period_total (rate : Q) (s : list Q) :
  exists v, discounted_payback_period rate s = Some v.
Proof.
  unfold discounted_payback_period.
  destruct (negative_cash_flows rate s) as [|y ys] eqn:E; [eauto|].
  destruct (index_max y ys =? Nat.pred (length s))%nat eqn:Elast; [eauto|].
  apply Nat.eqb_neq in Elast.
  assert (Hlt : (index_max y ys < length s)%nat).
  { apply (in_negative_cash_flows_lt rate). rewrite E. apply index_max_in. }
  unfold loc.
  destruct (nth_error (CumulativeDiscountedCashFlows rate s) (index_max y ys))
    as [c|] eqn:Ec.
  2:{ apply nth_error_None in Ec.
      rewrite CumulativeDiscountedCashFlows_length in Ec. lia. }
  destruct (nth_error (DiscountedCashFlows rate s) (index_max y ys + 1))
    as [d|] eqn:Ed.
  2:{ apply nth_error_None in Ed.
      rewrite DiscountedCashFlows_length in Ed. lia. }
  eauto.
Qed.

(** ** The finite regime: the columns are the specification's dcf and cum *)

Lemma pow_nonzero (rate : Q) (n : nat) :
  ~ 1 + rate == 0 -> ~ (1 + rate) ^ Z.of_nat n == 0.
Proof. intros H. apply Qpower_not_0. exact H. Qed.

Lemma DiscountedCashFlows_finite (rate : Q) (s : list Q) :
  ~ 1 + rate == 0 ->
  DiscountedCashFlows rate s = map Fin (dcfQ rate s).
Proof.
  intros Hr. unfold DiscountedCashFlows, npf.pv, dcfQ.
  rewrite map_map. apply map_ext. intros [n f].
  unfold npf.pv1, fdiv.
  destruct (Qeq_bool ((1 + rate) ^ Z.of_nat n) 0) eqn:E; [|reflexivity].
  apply Qeq_bool_iff in E. exfalso. exact (pow_nonzero rate n Hr E).
Qed.

Lemma np_cumsum_from_Fin (l : list Q) :
  forall acc,
    np_cumsum_from (Fin acc) (map Fin l) = map Fin (cumQ_from acc l).
Proof.
  induction l as [|x l IH]; intros acc; simpl; [reflexivity|].
  now rewrite IH.
Qed.

Lemma cumQ_from_length (l : list Q) :
  forall acc, length (cumQ_from acc l) = length l.
Proof.
  induction l as [|x l IH]; intros acc; simpl; [reflexivity|].
  now rewrite IH.
Qed.

Lemma cumQ_length (l : list Q) : length (cumQ l) = length l.
Proof.
  destruct l; simpl; [reflexivity|]. now rewrite cumQ_from_length.
Qed.

Lemma fillna_Fin (l : list Q) :
  map (fun x => if isna x then Fin 0 else x) (map Fin l) = map Fin l.
Proof.
  induction l as [|x l IH]; simpl; [reflexivity|]. now rewrite IH.
Qed.

Lemma mask_Fin (l : list Q) :
  forall cs : list fval,
    length cs = length l ->
    map (fun '(x, r) => if isna x then NaN else r) (combine (map Fin l) cs)
    = cs.
Proof.
  induction l as [|x l IH]; intros [|c cs] Hlen; simpl in *;
    try reflexivity; try discriminate.
  rewrite IH by lia. reflexivity.
Qed.

Lemma cumsum_Fin (l : list Q) : cumsum (map Fin l) = map Fin (cumQ l).
Proof.
  unfold cumsum. rewrite fillna_Fin.
  assert (E : np_cumsum (map Fin l) = map Fin (cumQ l)).
  { destruct l as [|x l]; simpl; [reflexivity|].
    now rewrite np_cumsum_from_Fin. }
  rewrite E. apply mask_Fin. now rewrite length_map, cumQ_length.
Qed.

Lemma CumulativeDiscountedCashFlows_finite (rate : Q) (s : list Q) :
  ~ 1 + rate == 0 ->
  CumulativeDiscountedCashFlows rate s = map Fin (cumQ (dcfQ rate s)).
Proof.
  intros Hr. unfold CumulativeDiscountedCashFlows.
  rewrite DiscountedCashFlows_finite by exact Hr. apply cumsum_Fin.
Qed.

Lemma dcfQ_length (rate : Q) (s : list Q) : length (dcfQ rate s) = length s.
Proof.
  unfold dcfQ, index.
  rewrite length_map, length_combine, length_seq, length_map.
  apply Nat.min_id.
Qed.

Lemma dcfQ_nth (rate : Q) (s : list Q) (t : nat) :
  ~ 1 + rate == 0 -> (t < length s)%nat ->
  nth t (dcfQ rate s) 0 == Spec.dcf rate s t.
Proof.
  intros Hr Ht. unfold dcfQ, index, Spec.dcf.
  set (f := fun '(n, f) => _).
  rewrite (nth_indep _ 0 (f (0%nat, - 0))).
  2:{ rewrite length_map, length_combine, length_seq, length_map. lia. }
  rewrite map_nth, combine_nth by now rewrite length_seq, length_map.
  rewrite seq_nth by exact Ht. rewrite map_nth. subst f. simpl.
  pose proof (pow_nonzero rate t Hr) as Hp.
  field. exact Hp.
Qed.

Lemma cumQ_from_step (l : list Q) :
  forall acc t, (S t < length l)%nat ->
    nth (S t) (cumQ_from acc l) 0 = nth t (cumQ_from acc l) 0 + nth (S t) l 0.
Proof.
  induction l as [|x l IH]; intros acc t Ht; simpl in Ht; [lia|].
  destruct t as [|t].
  - destruct l as [|x' l]; simpl in *; [lia|reflexivity].
  - simpl. apply IH. lia.
Qed.

Lemma cumQ_step (l : list Q) (t : nat) :
  (S t < length l)%nat ->
  nth (S t) (cumQ l) 0 = nth t (cumQ l) 0 + nth (S t) l 0.
Proof.
  destruct l as [|x l]; simpl; intros Ht; [lia|].
  destruct t as [|t].
  - destruct l as [|x' l]; simpl in *; [lia|reflexivity].
  - apply cumQ_from_step. lia.
Qed.

Lemma cumQ_head (l : list Q) : nth 0 (cumQ l) 0 = nth 0 l 0.
Proof. destruct l; reflexivity. Qed.

Lemma cumQ_dcfQ_nth (rate : Q) (s : list Q) :
  ~ 1 + rate == 0 ->
  forall t, (t < length s)%nat ->
    nth t (cumQ (dcfQ rate s)) 0 == Spec.cum rate s t.
Proof.
  intros Hr. induction t as [|t IH]; intros Ht.
  - rewrite cumQ_head. simpl. apply dcfQ_nth; assumption.
  - rewrite cumQ_step by now rewrite dcfQ_length.
    simpl. rewrite IH by lia. rewrite dcfQ_nth by assumption. reflexivity.
Qed.

(** A row of the cumulative column, in the finite regime. *)
Lemma Cumulative_row (rate : Q) (s : list Q) (t : nat) :
  ~ 1 + rate == 0 -> (t < length s)%nat ->
  exists c, nth_error (CumulativeDiscountedCashFlows rate s) t = Some (Fin c)
            /\ c == Spec.cum rate s t.
Proof.
  intros Hr Ht. exists (nth t (cumQ (dcfQ rate s)) 0). split.
  - rewrite CumulativeDiscountedCashFlows_finite by exact Hr.
    apply map_nth_error. apply nth_error_nth'.
    now rewrite cumQ_length, dcfQ_length.
  - apply cumQ_dcfQ_nth; assumption.
Qed.

Lemma Discounted_row (rate : Q) (s : list Q) (t : nat) :
  ~ 1 + rate == 0 -> (t < length s)%nat ->
  exists d, nth_error (DiscountedCashFlows rate s) t = Some (Fin d)
            /\ d == Spec.dcf rate s t.
Proof.
  intros Hr Ht. exists (nth t (dcfQ rate s) 0). split.
  - rewrite DiscountedCashFlows_finite by exact Hr.
    apply map_nth_error. apply nth_error_nth'. now rewrite dcfQ_length.
  - apply dcfQ_nth; assumption.
Qed.

(** The mask selects the periods whose cum is negative. *)
Lemma in_negative_cash_flows_finite (rate : Q) (s : list Q) (t : nat) :
  ~ 1 + rate == 0 ->
  In t (negative_cash_flows rate s) <->
  (t < length s)%nat /\ Spec.cum rate s t < 0.
Proof.
  intros Hr. split.
  - intros Hin. pose proof (in_negative_cash_flows_lt _ _ _ Hin) as Ht.
    split; [exact Ht|].
    apply in_negative_cash_flows in Hin. destruct Hin as [c [Hc Hneg]].
    destruct (Cumulative_row rate s t Hr Ht) as [c' [Hc' Heq]].
    rewrite Hc' in Hc. injection Hc as <-.
    apply flt_Fin in Hneg. now rewrite <- Heq.
  - intros [Ht Hneg]. apply in_negative_cash_flows.
    destruct (Cumulative_row rate s t Hr Ht) as [c [Hc Heq]].
    exists (Fin c). split; [exact Hc|]. apply flt_Fin. now rewrite Heq.
Qed.

(** ** The outcome of discounted_payback_period *)

Lemma cum_step_positive (r : Q) (s : list Q) (t : nat) :
  Spec.cum r s t < 0 -> 0 <= Spec.cum r s (S t) -> 0 < Spec.dcf r s (S t).
Proof. simpl. intros H1 H2. lra. Qed.

Lemma last_negative_unique (r : Q) (s : list Q) (t u : nat) :
  Spec.last_negative r s t -> Spec.last_negative r s u -> t = u.
Proof.
  intros (Ht & Hneg & Hafter) (Hu & Hneg' & Hafter').
  destruct (Nat.lt_trichotomy t u) as [Hlt|[Heq|Hgt]]; [|exact Heq|].
  - specialize (Hafter u (conj Hlt Hu)). lra.
  - specialize (Hafter' t (conj Hgt Ht)). lra.
Qed.

Lemma final_full_year_last_negative (rate : Q) (s : list Q) (y : nat)
      (ys : list nat) :
  ~ 1 + rate == 0 ->
  negative_cash_flows rate s = y :: ys ->
  Spec.last_negative rate s (index_max y ys).
Proof.
  intros Hr E.
  assert (Hin : In (index_max y ys) (negative_cash_flows rate s)).
  { rewrite E. apply index_max_in. }
  apply (in_negative_cash_flows_finite _ _ _ Hr) in Hin.
  destruct Hin as [Hlt Hneg].
  repeat split; try assumption.
  intros u [Hu1 Hu2].
  apply Qnot_lt_le. intros Hn.
  assert (Hin : In u (negative_cash_flows rate s)).
  { apply in_negative_cash_flows_finite; auto. }
  rewrite E in Hin. apply index_max_upper in Hin. lia.
Qed.

Lemma discounted_payback_period_outcome (rate : Q) (s : list Q) :
  ~ 1 + rate == 0 ->
  payback_outcome rate s (discounted_payback_period rate s).
Proof.
  intros Hr. unfold discounted_payback_period.
  destruct (negative_cash_flows rate s) as [|y ys] eqn:E.
  - apply no_negative_period. intros t Ht.
    apply Qnot_lt_le. intros Hn.
    assert (Hin : In t (negative_cash_flows rate s)).
    { apply in_negative_cash_flows_finite; auto. }
    rewrite E in Hin. exact Hin.
  - pose proof (final_full_year_last_negative rate s y ys Hr E) as Hlast.
    set (m := index_max y ys) in *.
    destruct Hlast as (Hm & Hneg & Hafter).
    destruct (m =? Nat.pred (length s))%nat eqn:Elast.
    + apply Nat.eqb_eq in Elast.
      apply (never_recovered rate s m); [repeat split; assumption|lia].
    + apply Nat.eqb_neq in Elast.
      assert (Hm1 : (S m < length s)%nat) by lia.
      destruct (Cumulative_row rate s m Hr Hm) as [c [Hc Hceq]].
      destruct (Discounted_row rate s (S m) Hr Hm1) as [d [Hd Hdeq]].
      unfold loc. rewrite Nat.add_1_r, Hc, Hd.
      assert (Hpos : 0 < Spec.dcf rate s (S m)).
      { apply cum_step_positive; [exact Hneg|]. apply Hafter. lia. }
      unfold fneg, fdiv.
      destruct (Qeq_bool d 0) eqn:Ed.
      { apply Qeq_bool_iff in Ed. rewrite Hdeq in Ed. lra. }
      simpl. apply (interpolated rate s m); [repeat split; assumption|exact Hm1|].
      rewrite Hceq, Hdeq. reflexivity.
Qed.

(** ** npf.npv is the direct summation *)

Lemma fold_left_fadd_Fin (l : list Q) :
  forall a, fold_left fadd (map Fin l) (Fin a) = Fin (fold_left Qplus l a).
Proof.
  induction l as [|x l IH]; intros a; simpl; [reflexivity|]. apply IH.
Qed.

Lemma combine_snoc {X Y : Type} (l : list X) (l' : list Y) (x : X) (y : Y) :
  length l = length l' ->
  combine (l ++ [x]) (l' ++ [y]) = combine l l' ++ [(x, y)].
Proof.
  revert l'. induction l as [|a l IH]; intros [|b l'] H; simpl in *;
    try discriminate; [reflexivity|].
  rewrite IH by lia. reflexivity.
Qed.

Lemma fold_left_Qplus_acc (l : list Q) :
  forall a, fold_left Qplus l a == a + fold_left Qplus l 0.
Proof.
  induction l as [|x l IH]; intros a; simpl; [ring|].
  rewrite (IH (a + x)), (IH (0 + x)). ring.
Qed.

Lemma cum_app (r : Q) (s l : list Q) (t : nat) :
  (t < length s)%nat -> Spec.cum r (s ++ l) t = Spec.cum r s t.
Proof.
  induction t as [|t IH]; intros Ht; simpl; unfold Spec.dcf.
  - now rewrite app_nth1.
  - rewrite IH by lia. now rewrite app_nth1.
Qed.

Lemma direct_summation (r : Q) (s : list Q) :
  fold_left Qplus
    (map (fun '(t, v) => v / (1 + r) ^ Z.of_nat t)
         (combine (index (length s)) s)) 0
  == Spec.NPV r s.
Proof.
  unfold Spec.NPV, index.
  induction s as [|x s IH] using rev_ind.
  - simpl. unfold Spec.dcf. simpl. reflexivity.
  - rewrite length_app. simpl length. rewrite Nat.add_1_r, seq_S. simpl.
    rewrite combine_snoc by apply length_seq.
    rewrite map_app, fold_left_app. simpl. rewrite IH.
    destruct (length s) as [|k] eqn:En.
    + destruct s; [|discriminate]. simpl. unfold Spec.dcf. simpl. field.
    + simpl. rewrite cum_app by lia.
      unfold Spec.dcf. rewrite app_nth2 by lia.
      rewrite En, Nat.sub_diag. simpl. reflexivity.
Qed.

Lemma npv_finite (r : Q) (s : list Q) :
  ~ 1 + r == 0 ->
  exists v, npf.npv r s = Fin v /\ v == Spec.NPV r s.
Proof.
  intros Hr. unfold npf.npv.
  rewrite (map_ext _ (fun p => Fin ((fun '(t, v) => v / (1 + r) ^ Z.of_nat t) p))).
  2:{ intros [t v]. unfold fdiv.
      destruct (Qeq_bool ((1 + r) ^ Z.of_nat t) 0) eqn:E; [|reflexivity].
      apply Qeq_bool_iff in E. exfalso. exact (pow_nonzero r t Hr E). }
  rewrite <- map_map, fold_left_fadd_Fin.
  eexists. split; [reflexivity|]. apply direct_summation.
Qed.

(** ** Rounding to two places *)

Lemma rint_bounds (q : Q) :
  q - (1 # 2) <= inject_Z (rint q) <= q + (1 # 2).
Proof.
  unfold rint.
  pose proof (Qfloor_le q) as Hlo. pose proof (Qlt_floor q) as Hhi.
  rewrite inject_Z_plus in Hhi. change (inject_Z 1) with 1 in Hhi.
  destruct (Qlt_bool (q - inject_Z (Qfloor q)) (1 # 2)) eqn:E1.
  { apply Qlt_bool_iff in E1. lra. }
  apply Qlt_bool_false_iff in E1.
  destruct (Qlt_bool (1 # 2) (q - inject_Z (Qfloor q))) eqn:E2.
  { rewrite inject_Z_plus. change (inject_Z 1) with 1. lra. }
  apply Qlt_bool_false_iff in E2.
  destruct (Z.even (Qfloor q)).
  - lra.
  - rewrite inject_Z_plus. change (inject_Z 1) with 1. lra.
Qed.

Lemma round2_error (q : Q) : Qabs (round2 q - q) <= 1 # 200.
Proof.
  unfold round2. pose proof (rint_bounds (q * 100)) as [H1 H2].
  apply Qabs_Qle_condition.
  set (z := inject_Z (rint (q * 100))) in *.
  assert (E : z / 100 == z * (1 # 100)) by (field; discriminate).
  rewrite E. split; lra.
Qed.

#[global] Instance Qlt_bool_comp : Proper (Qeq ==> Qeq ==> eq) Qlt_bool.
Proof. intros a b Hab c d Hcd. unfold Qlt_bool. now rewrite Hab, Hcd. Qed.

#[global] Instance rint_comp : Proper (Qeq ==> eq) rint.
Proof.
  intros a b Hab. unfold rint.
  rewrite (Qfloor_comp _ _ Hab).
  assert (E1 : Qlt_bool (a - inject_Z (Qfloor b)) (1 # 2)
               = Qlt_bool (b - inject_Z (Qfloor b)) (1 # 2))
    by now rewrite Hab.
  assert (E2 : Qlt_bool (1 # 2) (a - inject_Z (Qfloor b))
               = Qlt_bool (1 # 2) (b - inject_Z (Qfloor b)))
    by now rewrite Hab.
  now rewrite E1, E2.
Qed.

Lemma rint_monotone (a b : Q) : a <= b -> (rint a <= rint b)%Z.
Proof.
  intros Hab.
  destruct (Z_le_gt_dec (rint a) (rint b)) as [H|H]; [exact H|exfalso].
  assert (Hz : (rint b + 1 <= rint a)%Z) by lia.
  rewrite Zle_Qle, inject_Z_plus in Hz. change (inject_Z 1) with 1 in Hz.
  pose proof (rint_bounds a) as [_ Ha]. pose proof (rint_bounds b) as [Hb _].
  assert (Heq : a == b) by lra.
  rewrite Heq in H. lia.
Qed.

Lemma round2_monotone (a b : Q) : a <= b -> round2 a <= round2 b.
Proof.
  intros Hab. unfold round2.
  assert (H : (rint (a * 100) <= rint (b * 100))%Z)
    by (apply rint_monotone; lra).
  rewrite Zle_Qle in H.
  apply Qmult_le_compat_r; [exact H|]. discriminate.
Qed.

(** ** Powers of the discount factor *)

Lemma pow_S (y : Q) (k : nat) : y ^ Z.of_nat (S k) == y * y ^ Z.of_nat k.
Proof.
  rewrite Nat2Z.inj_succ. unfold Z.succ.
  rewrite Qpower_plus' by lia. rewrite Qpower_1_r. ring.
Qed.

Lemma pow_pos (y : Q) (k : nat) : 0 < y -> 0 < y ^ Z.of_nat k.
Proof. intros H. apply Qpower_0_lt. exact H. Qed.

Lemma pow_add (y : Q) (a b : nat) :
  0 < y -> y ^ Z.of_nat (a + b) == y ^ Z.of_nat a * y ^ Z.of_nat b.
Proof.
  intros H. rewrite Nat2Z.inj_add. apply Qpower_plus. intro E. lra.
Qed.

Lemma pow_monotone (y1 y2 : Q) (k : nat) :
  0 < y1 -> y1 <= y2 -> y1 ^ Z.of_nat k <= y2 ^ Z.of_nat k.
Proof.
  intros H1 H12. induction k as [|k IH].
  - simpl. lra.
  - rewrite !pow_S.
    pose proof (pow_pos y1 k H1) as Hp.
    apply Qmult_le_compat_nonneg; split; lra.
Qed.

Lemma Qdiv_antitone (x a b : Q) : 0 <= x -> 0 < a -> a <= b -> x / b <= x / a.
Proof.
  intros Hx Ha Hab.
  assert (E : x / a - x / b == x * (b - a) / (a * b)) by (field; split; lra).
  assert (H : 0 <= x * (b - a) / (a * b)).
  { apply Qle_shift_div_l.
    - apply Qmult_lt_0_compat; lra.
    - rewrite Qmult_0_l. apply Qmult_le_0_compat; lra. }
  lra.
Qed.

(** ** Sums of flows of one sign *)

Lemma dcf_sign_pos (r : Q) (s : list Q) (k : nat) :
  -1 < r -> 0 <= nth k s 0 -> 0 <= Spec.dcf r s k.
Proof.
  intros Hr H. unfold Spec.dcf. apply Qle_shift_div_l.
  - apply pow_pos. lra.
  - lra.
Qed.

Lemma dcf_sign_neg (r : Q) (s : list Q) (k : nat) :
  -1 < r -> nth k s 0 <= 0 -> Spec.dcf r s k <= 0.
Proof.
  intros Hr H. unfold Spec.dcf. apply Qle_shift_div_r.
  - apply pow_pos. lra.
  - lra.
Qed.

Lemma dcf_pos_flow_pos (r : Q) (s : list Q) (k : nat) :
  -1 < r -> 0 < Spec.dcf r s k -> 0 < nth k s 0.
Proof.
  intros Hr H. apply Qnot_le_lt. intros Hle.
  pose proof (dcf_sign_neg r s k Hr Hle). lra.
Qed.

Lemma cum_nonneg (r : Q) (s : list Q) (t : nat) :
  -1 < r -> (forall k, (k <= t)%nat -> 0 <= nth k s 0) -> 0 <= Spec.cum r s t.
Proof.
  intros Hr. induction t as [|t IH]; intros H; simpl.
  - apply dcf_sign_pos; auto.
  - pose proof (dcf_sign_pos r s (S t) Hr (H (S t) (le_n _))).
    assert (0 <= Spec.cum r s t) by (apply IH; intros; apply H; lia). lra.
Qed.

Lemma cum_tail_nonneg (r : Q) (s : list Q) (a b : nat) :
  -1 < r -> (a <= b)%nat ->
  (forall k, (a < k <= b)%nat -> 0 <= nth k s 0) ->
  Spec.cum r s a <= Spec.cum r s b.
Proof.
  intros Hr Hab. induction Hab as [|b Hab IH]; intros H.
  - lra.
  - simpl.
    pose proof (dcf_sign_pos r s (S b) Hr (H (S b) ltac:(lia))).
    assert (Spec.cum r s a <= Spec.cum r s b) by (apply IH; intros; apply H; lia).
    lra.
Qed.

(** Flows that are all outlays weigh more at the lower rate. *)
Lemma cum_outlays_monotone (r1 r2 : Q) (s : list Q) (t : nat) :
  -1 < r1 -> r1 <= r2 ->
  (forall k, (k <= t)%nat -> nth k s 0 <= 0) ->
  Spec.cum r1 s t <= Spec.cum r2 s t.
Proof.
  intros Hr H12.
  assert (Hterm : forall k, nth k s 0 <= 0 -> Spec.dcf r1 s k <= Spec.dcf r2 s k).
  { intros k Hk. unfold Spec.dcf.
    pose proof (Qdiv_antitone (- nth k s 0) ((1 + r1) ^ Z.of_nat k)
                              ((1 + r2) ^ Z.of_nat k)) as H.
    assert (Hp : 0 < (1 + r1) ^ Z.of_nat k) by (apply pow_pos; lra).
    assert (Hm : (1 + r1) ^ Z.of_nat k <= (1 + r2) ^ Z.of_nat k)
      by (apply pow_monotone; lra).
    specialize (H ltac:(lra) Hp Hm).
    assert (E1 : - nth k s 0 / (1 + r1) ^ Z.of_nat k
                 == - (nth k s 0 / (1 + r1) ^ Z.of_nat k)) by (field; lra).
    assert (E2 : - nth k s 0 / (1 + r2) ^ Z.of_nat k
                 == - (nth k s 0 / (1 + r2) ^ Z.of_nat k)) by (field; lra).
    lra. }
  induction t as [|t IH]; intros H; simpl.
  - apply Hterm. apply H. lia.
  - pose proof (Hterm (S t) (H (S t) (le_n _))).
    assert (Spec.cum r1 s t <= Spec.cum r2 s t) by (apply IH; intros; apply H; lia).
    lra.
Qed.

(** ** The conventional shape: outlays, then inflows *)

Section Conventional.

Variables (s : list Q) (m : nat) (r1 r2 : Q).
Hypothesis shape : outlays_then_inflows m s.
Hypothesis r1_valid : -1 < r1.
Hypothesis r1_le_r2 : r1 <= r2.

Local Abbreviation y1 := (1 + r1).
Local Abbreviation y2 := (1 + r2).

Lemma low_factor_pos : 0 < y1.
Proof. lra. Qed.

Lemma high_factor_pos : 0 < y2.
Proof. lra. Qed.

(** A discounted flow, scaled by (1+r)^m, does not grow with the rate. *)
Lemma scaled_dcf_antitone (k : nat) :
  Spec.dcf r2 s k * y2 ^ Z.of_nat m <= Spec.dcf r1 s k * y1 ^ Z.of_nat m.
Proof.
  pose proof low_factor_pos as H1. pose proof high_factor_pos as H2.
  assert (H12 : y1 <= y2) by lra.
  unfold Spec.dcf.
  destruct (shape k) as [Hout Hin].
  destruct (Nat.lt_ge_cases k m) as [Hk | Hk].
  - specialize (Hout Hk). clear Hin.
    replace m with (k + (m - k))%nat by lia.
    rewrite !pow_add by assumption.
    pose proof (pow_pos y1 k H1) as Hp1. pose proof (pow_pos y2 k H2) as Hp2.
    pose proof (pow_pos y1 (m - k) H1) as Hq1.
    pose proof (pow_monotone y1 y2 (m - k) H1 H12) as Hq.
    set (x := nth k s 0) in *.
    set (a1 := y1 ^ Z.of_nat k) in *. set (a2 := y2 ^ Z.of_nat k) in *.
    set (b1 := y1 ^ Z.of_nat (m - k)) in *.
    set (b2 := y2 ^ Z.of_nat (m - k)) in *.
    assert (E1 : x / a1 * (a1 * b1) == x * b1) by (field; lra).
    assert (E2 : x / a2 * (a2 * b2) == x * b2) by (field; lra).
    rewrite E1, E2. nra.
  - specialize (Hin Hk). clear Hout.
    replace k with (m + (k - m))%nat by lia.
    rewrite !pow_add by assumption.
    pose proof (pow_pos y1 m H1) as Hp1. pose proof (pow_pos y2 m H2) as Hp2.
    pose proof (pow_pos y1 (k - m) H1) as Hq1.
    pose proof (pow_pos y2 (k - m) H2) as Hq2.
    pose proof (pow_monotone y1 y2 (k - m) H1 H12) as Hq.
    replace (m + (k - m))%nat with k by lia.
    set (x := nth k s 0) in *.
    set (a1 := y1 ^ Z.of_nat m) in *. set (a2 := y2 ^ Z.of_nat m) in *.
    set (b1 := y1 ^ Z.of_nat (k - m)) in *.
    set (b2 := y2 ^ Z.of_nat (k - m)) in *.
    assert (E1 : x / (a1 * b1) * a1 == x / b1) by (field; lra).
    assert (E2 : x / (a2 * b2) * a2 == x / b2) by (field; lra).
    rewrite E1, E2. apply Qdiv_antitone; assumption.
Qed.

Lemma scaled_cum_antitone (t : nat) :
  Spec.cum r2 s t * y2 ^ Z.of_nat m <= Spec.cum r1 s t * y1 ^ Z.of_nat m.
Proof.
  induction t as [|t IH]; simpl.
  - apply scaled_dcf_antitone.
  - pose proof (scaled_dcf_antitone (S t)) as H. lra.
Qed.

(** A period still unrecovered at the lower rate is unrecovered at the
    higher one. *)
Lemma negative_at_higher_rate (t : nat) :
  Spec.cum r1 s t < 0 -> Spec.cum r2 s t < 0.
Proof.
  intros H. pose proof (scaled_cum_antitone t) as Hs.
  pose proof (pow_pos y1 m low_factor_pos) as Hp1.
  pose proof (pow_pos y2 m high_factor_pos) as Hp2.
  nra.
Qed.

(** A period unrecovered at the higher rate leaves some period
    unrecovered at the lower one, no later. *)
Lemma negative_at_lower_rate (t : nat) :
  Spec.cum r2 s t < 0 ->
  exists u, (u <= t)%nat /\ Spec.cum r1 s u < 0.
Proof.
  intros H.
  assert (Hr2 : -1 < r2) by lra.
  destruct m as [|m'] eqn:Em.
  - exfalso.
    assert (0 <= Spec.cum r2 s t).
    { apply cum_nonneg; [exact Hr2|]. intros k _. apply (shape k). lia. }
    lra.
  - exists (Nat.min t m'). split; [lia|].
    assert (Hneg : Spec.cum r2 s (Nat.min t m') < 0).
    { pose proof (cum_tail_nonneg r2 s (Nat.min t m') t Hr2 ltac:(lia)) as Ht.
      assert (Spec.cum r2 s (Nat.min t m') <= Spec.cum r2 s t).
      { apply Ht. intros k Hk. apply (shape k). lia. }
      lra. }
    assert (Spec.cum r1 s (Nat.min t m') <= Spec.cum r2 s (Nat.min t m')).
    { apply cum_outlays_monotone; try assumption.
      intros k Hk. apply (shape k). lia. }
    lra.
Qed.

(** The interpolated fraction does not shrink when the rate grows. *)
Lemma fraction_monotone (t : nat) :
  Spec.cum r1 s t < 0 ->
  0 < Spec.dcf r1 s (S t) -> 0 < Spec.dcf r2 s (S t) ->
  - Spec.cum r1 s t / Spec.dcf r1 s (S t)
  <= - Spec.cum r2 s t / Spec.dcf r2 s (S t).
Proof.
  intros Hneg Hd1 Hd2.
  pose proof low_factor_pos as H1. pose proof high_factor_pos as H2.
  assert (H12 : y1 <= y2) by lra.
  pose proof (dcf_pos_flow_pos r1 s (S t) r1_valid Hd1) as Hflow.
  assert (Hm : (m <= S t)%nat).
  { destruct (Nat.lt_ge_cases (S t) m) as [Hlt|Hge]; [|exact Hge].
    pose proof (proj1 (shape (S t)) Hlt). lra. }
  pose proof (scaled_cum_antitone t) as Hs.
  unfold Spec.dcf in *.
  set (x := nth (S t) s 0) in *.
  set (c1 := Spec.cum r1 s t) in *. set (c2 := Spec.cum r2 s t) in *.
  assert (Ea : forall y, 0 < y ->
             y ^ Z.of_nat (S t) == y ^ Z.of_nat m * y ^ Z.of_nat (S t - m)).
  { intros y Hy. rewrite <- pow_add by exact Hy.
    replace (m + (S t - m))%nat with (S t) by lia. reflexivity. }
  pose proof (pow_pos y1 (S t) H1) as HP1.
  pose proof (pow_pos y2 (S t) H2) as HP2.
  pose proof (pow_pos y1 m H1) as Hp1. pose proof (pow_pos y2 m H2) as Hp2.
  pose proof (pow_pos y1 (S t - m) H1) as Hq1.
  pose proof (pow_monotone y1 y2 (S t - m) H1 H12) as Hq.
  assert (E1 : - c1 / (x / y1 ^ Z.of_nat (S t))
               == - c1 * y1 ^ Z.of_nat (S t) / x) by (field; lra).
  assert (E2 : - c2 / (x / y2 ^ Z.of_nat (S t))
               == - c2 * y2 ^ Z.of_nat (S t) / x) by (field; lra).
  rewrite E1, E2. rewrite (Ea y1 H1), (Ea y2 H2).
  set (a1 := y1 ^ Z.of_nat m) in *. set (a2 := y2 ^ Z.of_nat m) in *.
  set (b1 := y1 ^ Z.of_nat (S t - m)) in *.
  set (b2 := y2 ^ Z.of_nat (S t - m)) in *.
  apply Qmult_le_compat_r; [|apply Qlt_le_weak, Qinv_lt_0_compat, Hflow].
  assert (0 <= - c1 * a1) by nra.
  assert (- c1 * a1 <= - c2 * a2) by lra.
  nra.
Qed.

End Conventional.

(** ** The reverse shape: inflows, then outlays *)

Lemma inflows_then_outlays_never_interpolates
      (s : list Q) (m : nat) (r : Q) (t : nat) :
  inflows_then_outlays m s -> -1 < r ->
  Spec.last_negative r s t -> S t = length s.
Proof.
  intros shape Hr (Ht & Hneg & Hafter).
  destruct (Nat.eq_dec (S t) (length s)) as [E|Hne]; [exact E|exfalso].
  assert (Hpos : 0 < Spec.dcf r s (S t)).
  { apply cum_step_positive; [exact Hneg|]. apply Hafter. lia. }
  apply dcf_pos_flow_pos in Hpos; [|exact Hr].
  assert (Hm : (S t < m)%nat).
  { destruct (Nat.lt_ge_cases (S t) m) as [Hlt|Hge]; [exact Hlt|].
    pose proof (proj2 (shape (S t)) Hge). lra. }
  assert (0 <= Spec.cum r s t).
  { apply cum_nonneg; [exact Hr|]. intros k Hk. apply (shape k). lia. }
  lra.
Qed.

(** ** One sign change gives one of the two shapes *)

Lemma sgn_cases (x : Q) :
  (Spec.sgn x = 0%Z /\ x == 0) \/ (Spec.sgn x = 1%Z /\ 0 < x)
  \/ (Spec.sgn x = (-1)%Z /\ x < 0).
Proof.
  destruct x as [n d]. unfold Spec.sgn, Qeq, Qlt. simpl.
  destruct n; simpl; [left | right; left | right; right]; split; lia.
Qed.


Lemma signed_default (p : Z) : signed p 0.
Proof. left. reflexivity. Qed.

Lemma no_sign_change (l : list Q) (p : Z) :
  p <> 0%Z -> Spec.sign_changes_from p l = 0%nat ->
  forall k, signed p (nth k l 0).
Proof.
  intros Hp. induction l as [|x l IH]; intros H k.
  - destruct k; apply signed_default.
  - simpl in H.
    destruct (Spec.sgn x =? 0)%Z eqn:E0.
    + apply Z.eqb_eq in E0. destruct k; [left; exact E0 | apply IH, H].
    + destruct (p =? 0)%Z eqn:Ep0; [apply Z.eqb_eq in Ep0; contradiction|].
      simpl in H.
      destruct (p =? Spec.sgn x)%Z eqn:Eps; [|discriminate].
      apply Z.eqb_eq in Eps. rewrite <- Eps in H.
      destruct k; [right; symmetry; exact Eps | apply IH, H].
Qed.

Lemma one_sign_change_from (l : list Q) (p : Z) :
  p = 1%Z \/ p = (-1)%Z ->
  Spec.sign_changes_from p l = 1%nat ->
  exists m, forall k,
      ((k < m)%nat -> signed p (nth k l 0)) /\
      ((m <= k)%nat -> signed (- p) (nth k l 0)).
Proof.
  intros Hp. induction l as [|x l IH]; intros H; [discriminate|].
  simpl in H.
  assert (Hp0 : (p =? 0)%Z = false) by (apply Z.eqb_neq; lia).
  destruct (Spec.sgn x =? 0)%Z eqn:E0.
  - apply Z.eqb_eq in E0. destruct (IH H) as [m Hm].
    exists (S m). intros [|k]; split; intros Hk; try lia.
    + left. exact E0.
    + apply Hm. lia.
    + apply Hm. lia.
  - rewrite Hp0 in H. simpl in H.
    destruct (p =? Spec.sgn x)%Z eqn:Eps.
    + apply Z.eqb_eq in Eps. rewrite <- Eps in H.
      destruct (IH H) as [m Hm].
      exists (S m). intros [|k]; split; intros Hk; try lia.
      * right. symmetry. exact Eps.
      * apply Hm. lia.
      * apply Hm. lia.
    + apply Z.eqb_neq in Eps. apply Z.eqb_neq in E0.
      injection H as H.
      assert (Ex : Spec.sgn x = (- p)%Z).
      { destruct (sgn_cases x) as [[E _]|[[E _]|[E _]]]; lia. }
      rewrite Ex in H.
      exists 0%nat. intros k. split; [lia|]. intros _.
      destruct k as [|k]; [right; exact Ex|].
      apply (no_sign_change l (- p)%Z); [lia | exact H].
Qed.

Lemma one_sign_change_shape (l : list Q) :
  Spec.sign_changes l = 1%nat ->
  exists m, outlays_then_inflows m l \/ inflows_then_outlays m l.
Proof.
  unfold Spec.sign_changes.
  assert (Hgen : Spec.sign_changes_from 0 l = 1%nat ->
                 exists p m, (p = 1%Z \/ p = (-1)%Z) /\ forall k,
                     ((k < m)%nat -> signed p (nth k l 0)) /\
                     ((m <= k)%nat -> signed (- p) (nth k l 0))).
  { induction l as [|x l IH]; intros H; [discriminate|].
    simpl in H. destruct (Spec.sgn x =? 0)%Z eqn:E0.
    - apply Z.eqb_eq in E0. destruct (IH H) as (p & m & Hp & Hm).
      exists p, (S m). split; [exact Hp|].
      intros [|k]; split; intros Hk; try lia.
      + left. exact E0.
      + apply Hm. lia.
      + apply Hm. lia.
    - apply Z.eqb_neq in E0. simpl in H.
      assert (Hp : Spec.sgn x = 1%Z \/ Spec.sgn x = (-1)%Z).
      { destruct (sgn_cases x) as [[E _]|[[E _]|[E _]]]; lia. }
      destruct (one_sign_change_from l (Spec.sgn x) Hp H) as [m Hm].
      exists (Spec.sgn x), (S m). split; [exact Hp|].
      intros [|k]; split; intros Hk; try lia.
      + right. reflexivity.
      + apply Hm. lia.
      + apply Hm. lia. }
  intros H. destruct (Hgen H) as (p & m & Hp & Hm). exists m.
  assert (Hle : forall x, signed (-1) x -> x <= 0).
  { intros x [E|E]; destruct (sgn_cases x) as [[E' ?]|[[E' ?]|[E' ?]]];
      try lia; lra. }
  assert (Hge : forall x, signed 1 x -> 0 <= x).
  { intros x [E|E]; destruct (sgn_cases x) as [[E' ?]|[[E' ?]|[E' ?]]];
      try lia; lra. }
  destruct Hp as [-> | ->]; [right | left]; intros k;
    destruct (Hm k) as [H1 H2]; split; intros Hk; auto.
Qed.

(** ** The claims on discounted_payback_period *)


Lemma data_A_last_negative : Spec.last_negative tma_default (col_A data) 2.
Proof.
  split; [|split].
  - simpl. lia.
  - vm_compute. reflexivity.
  - intros u [H1 H2]. simpl in H2.
    assert (E : u = 3%nat \/ u = 4%nat) by lia.
    destruct E as [-> | ->]; vm_compute; discriminate.
Qed.





Lemma inflows_then_outlays_infinite (s : list Q) (m : nat) (r : Q) :
  inflows_then_outlays m s -> -1 < r ->
  discounted_payback_period r s = Some PInf.
Proof.
  intros shape Hr.
  assert (Hr' : ~ 1 + r == 0) by (intro E; lra).
  destruct (discounted_payback_period_outcome r s Hr')
    as [_ | u _ _ | u v Hu Hmid _]; try reflexivity.
  pose proof (inflows_then_outlays_never_interpolates s m r u shape Hr Hu).
  lia.
Qed.

Lemma fraction_bounds (r : Q) (s : list Q) (t : nat) :
  Spec.last_negative r s t -> (S t < length s)%nat ->
  0 <= - Spec.cum r s t / Spec.dcf r s (S t) <= 1.
Proof.
  intros (Ht & Hneg & Hafter) Hmid.
  assert (Hnext : 0 <= Spec.cum r s (S t)) by (apply Hafter; lia).
  pose proof (cum_step_positive r s t Hneg Hnext) as Hpos.
  simpl in Hnext. split.
  - apply Qle_shift_div_l; [exact Hpos|]. lra.
  - apply Qle_shift_div_r; [exact Hpos|]. lra.
Qed.

Lemma of_nat_succ_le (a b : nat) : (a < b)%nat -> of_nat a + 1 <= of_nat b.
Proof.
  intros H. unfold of_nat. change 1 with (inject_Z 1).
  rewrite <- inject_Z_plus, <- Zle_Qle. lia.
Qed.

Lemma fle_PInf (o : option fval) (r : Q) (s : list Q) :
  payback_outcome r s o -> exists p, o = Some p /\ fle p PInf = true.
Proof.
  intros [H | t H1 H2 | t v H1 H2 H3]; eexists; split; reflexivity.
Qed.

Lemma outlays_then_inflows_monotone (s : list Q) (m : nat) (r1 r2 : Q) :
  outlays_then_inflows m s -> -1 < r1 -> r1 <= r2 ->
  exists p1 p2,
    discounted_payback_period r1 s = Some p1 /\
    discounted_payback_period r2 s = Some p2 /\
    fle p1 p2 = true.
Proof.
  intros shape Hr1 H12.
  assert (Hr1' : ~ 1 + r1 == 0) by (intro E; lra).
  assert (Hr2' : ~ 1 + r2 == 0) by (intro E; lra).
  pose proof (discounted_payback_period_outcome r1 s Hr1') as Ho1.
  pose proof (discounted_payback_period_outcome r2 s Hr2') as Ho2.
  destruct Ho2 as [Hnn2 | t2 Hl2 Hend2 | t2 v2 Hl2 Hmid2 Hv2].
  - destruct (fle_PInf _ _ _ Ho1) as (p & -> & Hp). eauto.
  - destruct (fle_PInf _ _ _ Ho1) as (p & -> & Hp). eauto.
  - pose proof Hl2 as (Ht2 & Hneg2 & Hafter2).
    destruct Ho1 as [Hnn1 | t1 Hl1 Hend1 | t1 v1 Hl1 Hmid1 Hv1].
    + exfalso.
      destruct (negative_at_lower_rate s m r1 r2 shape Hr1 H12 t2 Hneg2)
        as (u & Hu & Hnegu).
      specialize (Hnn1 u ltac:(lia)). lra.
    + exfalso. destruct Hl1 as (Ht1 & Hneg1 & _).
      pose proof (negative_at_higher_rate s m r1 r2 shape Hr1 H12 t1 Hneg1).
      specialize (Hafter2 t1 ltac:(lia)). lra.
    + exists (Fin v1), (Fin v2). split; [reflexivity|]. split; [reflexivity|].
      simpl. apply Qle_bool_iff.
      pose proof Hl1 as (Ht1 & Hneg1 & Hafter1).
      pose proof (negative_at_higher_rate s m r1 r2 shape Hr1 H12 t1 Hneg1)
        as Hneg12.
      assert (Hle : (t1 <= t2)%nat).
      { destruct (Nat.le_gt_cases t1 t2) as [H|H]; [exact H|].
        specialize (Hafter2 t1 ltac:(lia)). lra. }
      pose proof (fraction_bounds r1 s t1 Hl1 Hmid1) as [Hf1 Hf1'].
      pose proof (fraction_bounds r2 s t2 Hl2 Hmid2) as [Hf2 Hf2'].
      rewrite Hv1, Hv2.
      destruct (Nat.eq_dec t1 t2) as [E | Hne].
      * subst t2.
        assert (Hd1 : 0 < Spec.dcf r1 s (S t1)).
        { apply cum_step_positive; [exact Hneg1|]. apply Hafter1. lia. }
        assert (Hd2 : 0 < Spec.dcf r2 s (S t1)).
        { apply cum_step_positive; [exact Hneg2|]. apply Hafter2. lia. }
        pose proof (fraction_monotone s m r1 r2 shape Hr1 H12 t1 Hneg1 Hd1 Hd2).
        lra.
      * pose proof (of_nat_succ_le t1 t2 ltac:(lia)). lra.
Qed.



(** ** The comparison *)

Lemma escolhida_better (a b : ValuationResult) (m : metric) :
  escolhida (compare a b) m
  = if better m (value m a) (value m b) then "A"%string else "B"%string.
Proof. destruct m; reflexivity. Qed.

Lemma better_asym (m : metric) (x y : fval) :
  better m x y = true -> better m y x = false.
Proof. destruct m; simpl; apply flt_asym. Qed.

Lemma flt_NaN_l (x : fval) : flt NaN x = false.
Proof. reflexivity. Qed.

Lemma flt_NaN_r (x : fval) : flt x NaN = false.
Proof. destruct x; reflexivity. Qed.

(** C3, as the code has it.  When at least one IRR is undefined (NaN) the
    comparison raises nothing and the TIR row names B: a NaN is never
    greater than anything, and nothing is greater than a NaN. *)
Theorem undefined_irr_reports_B (a b : ValuationResult) :
  irr_of a = NaN \/ irr_of b = NaN ->
  escolhida (compare a b) TIR = "B"%string.
Proof.
  intros H. rewrite escolhida_better. simpl.
  destruct H as [-> | ->]; [rewrite flt_NaN_r | rewrite flt_NaN_l]; reflexivity.
Qed.

Lemma undefined_irr_reports_B_witness :
  escolhida (compare scenario_3 scenario_1) TIR = "B"%string.
Proof.
  apply undefined_irr_reports_B. left. reflexivity.
Defined.

(** C3, as stated, fails: with the undefined IRR of scenario 3 on either
    side, the TIR row is not "undefined". *)
Lemma undefined_irr_is_not_reported :
  irr_of scenario_3 = NaN /\
  escolhida (compare scenario_3 scenario_1) TIR <> "undefined"%string /\
  escolhida (compare scenario_1 scenario_3) TIR <> "undefined"%string.
Proof. split; [reflexivity|]. split; discriminate. Qed.

(** C6, as the code has it.  On a metric where one alternative is strictly
    better than the other, comparing (A, B) and (B, A) gives swapped
    winners; on a metric where neither is strictly better (a tie, or a
    NaN), both orders name B. *)
Theorem compare_swapped (a b : ValuationResult) (m : metric) :
  (better m (value m a) (value m b) || better m (value m b) (value m a) = true ->
   (escolhida (compare a b) m = "A"%string <->
    escolhida (compare b a) m = "B"%string) /\
   (escolhida (compare a b) m = "B"%string <->
    escolhida (compare b a) m = "A"%string))
  /\
  (better m (value m a) (value m b) || better m (value m b) (value m a) = false ->
   escolhida (compare a b) m = "B"%string /\
   escolhida (compare b a) m = "B"%string).
Proof.
  rewrite !escolhida_better.
  destruct (better m (value m a) (value m b)) eqn:Eab;
    destruct (better m (value m b) (value m a)) eqn:Eba; simpl.
  - apply better_asym in Eab. congruence.
  - split; [intros _ | discriminate]. split; split; intros H; congruence.
  - split; [intros _ | discriminate]. split; split; intros H; congruence.
  - split; [discriminate | intros _]. split; reflexivity.
Qed.

Lemma compare_swapped_witness :
  (escolhida (compare scenario_1 scenario_3) VPL = "A"%string <->
   escolhida (compare scenario_3 scenario_1) VPL = "B"%string) /\
  (escolhida (compare scenario_1 scenario_3) VPL = "B"%string <->
   escolhida (compare scenario_3 scenario_1) VPL = "A"%string).
Proof.
  apply (proj1 (compare_swapped scenario_1 scenario_3 VPL)). reflexivity.
Defined.

(** C6, as stated, fails: two alternatives with the same net present value
    get B on the VPL row in both orders. *)
Lemma compare_tie_not_swapped :
  let a := {| irr_of := Fin 0.2; npv_of := Fin 100; payback_of := Fin 2 |} in
  let b := {| irr_of := Fin 0.3; npv_of := Fin 100; payback_of := Fin 3 |} in
  escolhida (compare a b) VPL = "B"%string /\
  escolhida (compare b a) VPL = "B"%string.
Proof. split; reflexivity. Qed.

(** C7, as the code has it.  The Payback row names the alternative with
    the strictly smaller payback; an infinite payback loses to a finite
    one; and when both are infinite the row names B. *)
Theorem payback_winner (a b : ValuationResult) :
  (flt (payback_of a) (payback_of b) = true ->
   escolhida (compare a b) Payback = "A"%string) /\
  (flt (payback_of b) (payback_of a) = true ->
   escolhida (compare a b) Payback = "B"%string) /\
  (payback_of a = PInf -> isfinite (payback_of b) = true ->
   escolhida (compare a b) Payback = "B"%string) /\
  (isfinite (payback_of a) = true -> payback_of b = PInf ->
   escolhida (compare a b) Payback = "A"%string) /\
  (payback_of a = PInf -> payback_of b = PInf ->
   escolhida (compare a b) Payback = "B"%string).
Proof.
  rewrite escolhida_better. simpl.
  split; [|split; [|split; [|split]]].
  - intros ->. reflexivity.
  - intros H. apply flt_asym in H. rewrite H. reflexivity.
  - intros -> _. destruct (payback_of b); reflexivity.
  - intros Ha ->. destruct (payback_of a); try discriminate. reflexivity.
  - intros -> ->. reflexivity.
Qed.

Lemma payback_winner_witness :
  escolhida (compare scenario_1 scenario_3) Payback = "A"%string /\
  escolhida (compare scenario_3 scenario_1) Payback = "B"%string /\
  escolhida (compare scenario_3 scenario_3) Payback = "B"%string.
Proof.
  split; [|split].
  - apply (proj1 (payback_winner scenario_1 scenario_3)). reflexivity.
  - apply (proj1 (proj2 (proj2 (payback_winner scenario_3 scenario_1))));
      reflexivity.
  - apply (proj2 (proj2 (proj2 (proj2 (payback_winner scenario_3 scenario_3)))));
      reflexivity.
Defined.

(** C7, as stated, fails on its last part: with both paybacks infinite
    the Payback row is not "undefined", it is "B". *)
Lemma both_infinite_reports_B :
  payback_of scenario_3 = PInf /\
  escolhida (compare scenario_3 scenario_3) Payback = "B"%string /\
  escolhida (compare scenario_3 scenario_3) Payback <> "undefined"%string.
Proof. split; [reflexivity|]. split; [reflexivity|discriminate]. Qed.

(** ** The values of the script *)

Lemma fround2_reflects_lt (x y : fval) :
  flt (fround2 x) (fround2 y) = true -> flt x y = true.
Proof.
  destruct x as [a| | |], y as [b| | |]; simpl; try congruence.
  intros H. apply Qlt_bool_iff in H. apply Qlt_bool_iff.
  apply Qnot_le_lt. intros Hle.
  pose proof (round2_monotone b a Hle). lra.
Qed.







(** ** Scenario 1 *)

(** When every flow after period 0 is an inflow, cum[t] does not grow
    with the rate. *)
Lemma cum_inflows_antitone (r1 r2 : Q) (s : list Q) (t : nat) :
  -1 < r1 -> r1 <= r2 ->
  (forall k, (1 <= k)%nat -> 0 <= nth k s 0) ->
  Spec.cum r2 s t <= Spec.cum r1 s t.
Proof.
  intros Hr H12 Hin.
  assert (Hterm : forall k, Spec.dcf r2 s k <= Spec.dcf r1 s k).
  { intros [|k]; unfold Spec.dcf.
    - simpl. apply Qle_refl.
    - apply Qdiv_antitone.
      + apply Hin. lia.
      + apply pow_pos. lra.
      + apply pow_monotone; lra. }
  induction t as [|t IH]; simpl.
  - apply Hterm.
  - pose proof (Hterm (S t)). lra.
Qed.

Lemma data_A_inflows (k : nat) : (1 <= k)%nat -> 0 <= nth k (col_A data) 0.
Proof.
  intros Hk. do 5 (destruct k as [|k]; [simpl; try lia; discriminate|]).
  destruct k; simpl; apply Qle_refl.
Qed.

(** A rate at which the net present value of the first column of [data]
    is 0 within 1e-6 lies between 34.903% and 34.904%. *)
Lemma data_A_irr_bracket (v : Q) :
  -1 < v ->
  Qabs (Spec.NPV v (col_A data)) <= 1 # 1000000 ->
  0.34903 <= v <= 0.34904.
Proof.
  intros Hv Habs. apply Qabs_Qle_condition in Habs. destruct Habs as [Hlo Hhi].
  unfold Spec.NPV in *. simpl length in *. simpl Nat.pred in *.
  split; apply Qnot_lt_le; intros Hout.
  - pose proof (cum_inflows_antitone v 0.34903 (col_A data) 4 Hv
                  ltac:(lra) data_A_inflows) as H.
    assert (Hc : (1 # 1000) < Spec.cum 0.34903 (col_A data) 4)
      by (vm_compute; reflexivity).
    lra.
  - pose proof (cum_inflows_antitone 0.34904 v (col_A data) 4
                  ltac:(reflexivity) ltac:(lra) data_A_inflows) as H.
    assert (Hc : Spec.cum 0.34904 (col_A data) 4 < - (1 # 1000))
      by (vm_compute; reflexivity).
    lra.
Qed.

Lemma rint_between (x : Q) (z : Z) :
  inject_Z z - (1 # 2) < x -> x < inject_Z z + (1 # 2) -> rint x = z.
Proof.
  intros H1 H2. pose proof (rint_bounds x) as [Hlo Hhi].
  assert (Ha : (z - 1 < rint x)%Z).
  { rewrite Zlt_Qlt. unfold Z.sub. rewrite inject_Z_plus, inject_Z_opp.
    change (inject_Z 1) with 1. lra. }
  assert (Hb : (rint x < z + 1)%Z).
  { rewrite Zlt_Qlt, inject_Z_plus. change (inject_Z 1) with 1. lra. }
  lia.
Qed.




(** ** The interpolation never divides by zero

    Whatever the rate, when discounted_payback_period reaches the
    interpolation the discounted flow it divides by is not zero: a zero
    flow after the last negative period would leave the next period
    negative too. *)

Lemma nth_error_combine_seq {X : Type} (l : list X) :
  forall a k n x,
    nth_error (combine (seq a (length l)) l) k = Some (n, x) ->
    n = (a + k)%nat /\ nth_error l k = Some x.
Proof.
  induction l as [|z l IH]; intros a k n x H; simpl in H.
  - destruct k; discriminate.
  - destruct k as [|k]; simpl in H.
    + injection H as <- <-. split; [lia|reflexivity].
    + apply IH in H. destruct H as [-> H]. split; [lia|exact H].
Qed.

Lemma Discounted_row_degenerate (rate : Q) (s : list Q) (k : nat) (d : fval) :
  1 + rate == 0 -> (1 <= k)%nat ->
  nth_error (DiscountedCashFlows rate s) k = Some d ->
  isfinite d = false.
Proof.
  intros Hr Hk Hd. unfold DiscountedCashFlows, npf.pv, index in Hd.
  rewrite nth_error_map in Hd.
  replace (length s) with (length (map Qopp s)) in Hd by apply length_map.
  destruct (nth_error (combine (seq 0 (length (map Qopp s))) (map Qopp s)) k)
    as [[n x]|] eqn:E; [|discriminate].
  apply nth_error_combine_seq in E. destruct E as [-> _].
  simpl in Hd. injection Hd as <-.
  unfold npf.pv1, fdiv.
  assert (Hz : Qeq_bool ((1 + rate) ^ Z.of_nat k) 0 = true).
  { apply Qeq_bool_iff. rewrite Hr. apply Qpower_0. lia. }
  rewrite Hz. unfold inf_of_sign.
  destruct (Qlt_bool 0 _); [reflexivity|].
  destruct (Qlt_bool _ 0); reflexivity.
Qed.

Lemma interpolation_divisor_nonzero
      (rate : Q) (s : list Q) (y : nat) (ys : list nat) (d : fval) :
  negative_cash_flows rate s = y :: ys ->
  index_max y ys <> Nat.pred (length s) ->
  loc (DiscountedCashFlows rate s) (index_max y ys + 1) = Some d ->
  ~ feq d (Fin 0).
Proof.
  intros E Hmid Hd. unfold loc in Hd.
  destruct (Qeq_dec (1 + rate) 0) as [Hz | Hnz].
  - apply Discounted_row_degenerate in Hd; [|exact Hz|lia].
    destruct d; simpl in *; try discriminate; tauto.
  - pose proof (final_full_year_last_negative rate s y ys Hnz E)
      as (Hm & Hneg & Hafter).
    assert (Hm1 : (S (index_max y ys) < length s)%nat) by lia.
    destruct (Discounted_row rate s (S (index_max y ys)) Hnz Hm1)
      as [d' [Hd' Heq]].
    rewrite Nat.add_1_r, Hd' in Hd. injection Hd as <-. simpl.
    assert (Hpos : 0 < Spec.dcf rate s (S (index_max y ys))).
    { apply cum_step_positive; [exact Hneg|]. apply Hafter. lia. }
    intros H0. rewrite Heq in H0. lra.
Qed.

(** ** A series of inflows has no internal rate of return *)

Lemma cum_positive (r : Q) (s : list Q) (t : nat) :
  -1 < r -> (forall k, (k <= t)%nat -> 0 < nth k s 0) -> 0 < Spec.cum r s t.
Proof.
  intros Hr.
  assert (Hterm : forall k, 0 < nth k s 0 -> 0 < Spec.dcf r s k).
  { intros k Hk. unfold Spec.dcf. apply Qlt_shift_div_l.
    - apply pow_pos. lra.
    - lra. }
  induction t as [|t IH]; intros H; simpl.
  - apply Hterm, H. lia.
  - pose proof (Hterm (S t) (H (S t) (le_n _))).
    assert (0 < Spec.cum r s t) by (apply IH; intros; apply H; lia). lra.
Qed.

Lemma inflows_have_no_irr (r : Q) (s : list Q) :
  -1 < r -> s <> [] ->
  (forall k, (k < length s)%nat -> 0 < nth k s 0) ->
  0 < Spec.NPV r s.
Proof.
  intros Hr Hs H. unfold Spec.NPV. apply cum_positive; [exact Hr|].
  intros k Hk. apply H. destruct s; [contradiction|]. simpl in *. lia.
Qed.

(** ** Further properties of discounted_payback_period *)


Lemma fraction_positive (r : Q) (s : list Q) (t : nat) :
  Spec.last_negative r s t -> (S t < length s)%nat ->
  0 < - Spec.cum r s t / Spec.dcf r s (S t).
Proof.
  intros (Ht & Hneg & Hafter) Hmid.
  assert (Hnext : 0 <= Spec.cum r s (S t)) by (apply Hafter; lia).
  pose proof (cum_step_positive r s t Hneg Hnext) as Hpos.
  apply Qlt_shift_div_l; [exact Hpos|]. lra.
Qed.






Lemma negative_npv_never_recovered (rate : Q) (s : list Q) :
  ~ 1 + rate == 0 ->
  flt (npf.npv rate s) (Fin 0) = true ->
  discounted_payback_period rate s = Some PInf.
Proof.
  intros Hr Hneg.
  destruct (npv_finite rate s Hr) as [w [Hw Hweq]].
  rewrite Hw in Hneg. apply flt_Fin in Hneg. rewrite Hweq in Hneg.
  unfold Spec.NPV in Hneg.
  assert (Hs : s <> []).
  { intros ->. vm_compute in Hneg. discriminate. }
  assert (Hlt : (Nat.pred (length s) < length s)%nat).
  { destruct s; [contradiction|]. simpl. lia. }
  destruct (discounted_payback_period_outcome rate s Hr)
    as [_ | t _ _ | t v (_ & _ & Hafter) Hmid _]; try reflexivity.
  specialize (Hafter (Nat.pred (length s)) ltac:(lia)). lra.
Qed.

Lemma round2_zero : round2 0 == 0.
Proof. vm_compute. reflexivity. Qed.



(** ** The unit of the cash flows does not matter *)

Lemma outcome_unique (r : Q) (s : list Q) (o1 o2 : option fval) :
  payback_outcome r s o1 -> payback_outcome r s o2 ->
  exists p q, o1 = Some p /\ o2 = Some q /\ feq p q.
Proof.
  intros H1 H2.
  destruct H1 as [Hnn1 | t1 Hl1 He1 | t1 v1 Hl1 Hm1 Hv1];
    destruct H2 as [Hnn2 | t2 Hl2 He2 | t2 v2 Hl2 Hm2 Hv2];
    try (exists PInf, PInf; repeat split; reflexivity).
  - exfalso. destruct Hl2 as (Ht & Hneg & _). specialize (Hnn1 t2 Ht). lra.
  - exfalso. pose proof (last_negative_unique _ _ _ _ Hl1 Hl2). lia.
  - exfalso. destruct Hl1 as (Ht & Hneg & _). specialize (Hnn2 t1 Ht). lra.
  - exfalso. pose proof (last_negative_unique _ _ _ _ Hl1 Hl2). lia.
  - exists (Fin v1), (Fin v2). split; [reflexivity|]. split; [reflexivity|].
    simpl. pose proof (last_negative_unique _ _ _ _ Hl1 Hl2) as E. subst t2.
    rewrite Hv1, Hv2. reflexivity.
Qed.

Lemma nth_scale (c : Q) (s : list Q) :
  forall t, nth t (map (Qmult c) s) 0 == c * nth t s 0.
Proof.
  induction s as [|x s IH]; intros [|t]; simpl; try ring. apply IH.
Qed.

Lemma dcf_scale (r c : Q) (s : list Q) (t : nat) :
  Spec.dcf r (map (Qmult c) s) t == c * Spec.dcf r s t.
Proof.
  unfold Spec.dcf. rewrite nth_scale. unfold Qdiv. ring.
Qed.

Lemma cum_scale (r c : Q) (s : list Q) (t : nat) :
  Spec.cum r (map (Qmult c) s) t == c * Spec.cum r s t.
Proof.
  induction t as [|t IH]; simpl.
  - apply dcf_scale.
  - rewrite IH, dcf_scale. ring.
Qed.

Lemma last_negative_scale (r c : Q) (s : list Q) (t : nat) :
  0 < c ->
  Spec.last_negative r s t -> Spec.last_negative r (map (Qmult c) s) t.
Proof.
  intros Hc (Ht & Hneg & Hafter). unfold Spec.last_negative.
  rewrite length_map. split; [exact Ht|]. split.
  - rewrite cum_scale. nra.
  - intros u Hu. rewrite cum_scale. specialize (Hafter u Hu). nra.
Qed.

Lemma outcome_scale (r c : Q) (s : list Q) (o : option fval) :
  0 < c ->
  payback_outcome r s o -> payback_outcome r (map (Qmult c) s) o.
Proof.
  intros Hc [Hnn | t Hl He | t v Hl Hm Hv].
  - apply no_negative_period. intros t Ht. rewrite length_map in Ht.
    rewrite cum_scale. specialize (Hnn t Ht). nra.
  - apply (never_recovered _ _ t).
    + apply last_negative_scale; assumption.
    + now rewrite length_map.
  - apply (interpolated _ _ t).
    + apply last_negative_scale; assumption.
    + now rewrite length_map.
    + rewrite Hv, cum_scale, dcf_scale.
      destruct Hl as (Ht & Hneg & Hafter).
      assert (Hpos : 0 < Spec.dcf r s (S t)).
      { apply cum_step_positive; [exact Hneg|]. apply Hafter. lia. }
      field. split; lra.
Qed.



(** ** Rounding to two places, again *)

Lemma rint_inject_Z (z : Z) : rint (inject_Z z) = z.
Proof.
  unfold rint. rewrite Qfloor_Z.
  assert (H : Qlt_bool (inject_Z z - inject_Z z) (1 # 2) = true).
  { apply Qlt_bool_iff. ring_simplify. reflexivity. }
  now rewrite H.
Qed.

Lemma round2_hundredths (q : Q) : round2 q * 100 == inject_Z (rint (q * 100)).
Proof. unfold round2. field. Qed.

Lemma round2_idempotent (q : Q) : round2 (round2 q) == round2 q.
Proof.
  unfold round2 at 1.
  rewrite (rint_comp _ _ (round2_hundredths q)), rint_inject_Z.
  reflexivity.
Qed.

Lemma round2_of_nat (n : nat) : round2 (of_nat n) == of_nat n.
Proof.
  unfold round2, of_nat.
  assert (E : inject_Z (Z.of_nat n) * 100 == inject_Z (Z.of_nat n * 100)).
  { rewrite inject_Z_mult. reflexivity. }
  rewrite (rint_comp _ _ E), rint_inject_Z, inject_Z_mult.
  change (inject_Z 100) with 100. field.
Qed.

(** X10.  Rounding to two places a second time changes nothing: the
    values the script stores are fixed points of [round(x, 2)], the
    infinities and NaN included. *)
Theorem fround2_idempotent (x : fval) : feq (fround2 (fround2 x)) (fround2 x).
Proof.
  destruct x as [q| | |]; simpl; try exact I. apply round2_idempotent.
Qed.



(** ** The comparison, again *)

Lemma flt_trans (x y z : fval) :
  flt x y = true -> flt y z = true -> flt x z = true.
Proof.
  destruct x, y, z; simpl; try congruence.
  intros H1 H2. apply Qlt_bool_iff in H1. apply Qlt_bool_iff in H2.
  apply Qlt_bool_iff. lra.
Qed.

Lemma escolhida_A_iff (a b : ValuationResult) (m : metric) :
  escolhida (compare a b) m = "A"%string <->
  better m (value m a) (value m b) = true.
Proof.
  rewrite escolhida_better.
  destruct (better m (value m a) (value m b)); split; congruence.
Qed.

(** X12.  The choice of the comparison is transitive on every row: when
    A is chosen between a and b, and between b and c, it is chosen
    between a and c. *)
Theorem compare_transitive (a b c : ValuationResult) (m : metric) :
  escolhida (compare a b) m = "A"%string ->
  escolhida (compare b c) m = "A"%string ->
  escolhida (compare a c) m = "A"%string.
Proof.
  rewrite !escolhida_A_iff. destruct m; simpl; intros H1 H2.
  - exact (flt_trans _ _ _ H2 H1).
  - exact (flt_trans _ _ _ H2 H1).
  - exact (flt_trans _ _ _ H1 H2).
Qed.

Lemma compare_transitive_witness :
  escolhida (compare scenario_2 scenario_1) VPL = "A"%string.
Proof.
  apply (compare_transitive scenario_2 scenario_3 scenario_1); reflexivity.
Defined.


(** ** Series that never pay back *)

Lemma no_sign_change_shape (l : list Q) :
  Spec.sign_changes l = 0%nat -> exists m, inflows_then_outlays m l.
Proof.
  unfold Spec.sign_changes.
  assert (Hgen : Spec.sign_changes_from 0 l = 0%nat ->
                 exists p, (p = 1%Z \/ p = (-1)%Z) /\
                           forall k, signed p (nth k l 0)).
  { induction l as [|x l IH]; intros H.
    - exists 1%Z. split; [auto|]. intros [|k]; apply signed_default.
    - simpl in H. destruct (Spec.sgn x =? 0)%Z eqn:E0.
      + apply Z.eqb_eq in E0. destruct (IH H) as (p & Hp & Hall).
        exists p. split; [exact Hp|]. intros [|k]; [left; exact E0|apply Hall].
      + apply Z.eqb_neq in E0. simpl in H.
        assert (Hp : Spec.sgn x = 1%Z \/ Spec.sgn x = (-1)%Z).
        { destruct (sgn_cases x) as [[E _]|[[E _]|[E _]]]; lia. }
        exists (Spec.sgn x). split; [exact Hp|].
        intros [|k]; [right; reflexivity|].
        exact (no_sign_change l (Spec.sgn x) E0 H k). }
  intros H. destruct (Hgen H) as (p & [-> | ->] & Hall).
  - exists (length l). intros k. split; intros Hk.
    + destruct (Hall k) as [E|E];
        destruct (sgn_cases (nth k l 0)) as [[E' ?]|[[E' ?]|[E' ?]]];
        try lia; lra.
    + rewrite nth_overflow by exact Hk. apply Qle_refl.
  - exists 0%nat. intros k. split; intros Hk; [lia|].
    destruct (Hall k) as [E|E];
      destruct (sgn_cases (nth k l 0)) as [[E' ?]|[[E' ?]|[E' ?]]];
      try lia; lra.
Qed.

(** X9.  For a rate above -1, a series whose flows never change sign, or
    whose inflows all come before its outlays, has an infinite
    discounted payback. *)
Theorem no_outlay_before_inflows_never_pays_back (rate : Q) (series : list Q) :
  -1 < rate ->
  Spec.sign_changes series = 0%nat \/
  (exists m, inflows_then_outlays m series) ->
  discounted_payback_period rate series = Some PInf.
Proof.
  intros Hr [H | H].
  - destruct (no_sign_change_shape series H) as [m Hm].
    exact (inflows_then_outlays_infinite series m rate Hm Hr).
  - destruct H as [m Hm].
    exact (inflows_then_outlays_infinite series m rate Hm Hr).
Qed.

Lemma no_outlay_before_inflows_never_pays_back_witness :
  discounted_payback_period tma_default [-100; -20; -3] = Some PInf /\
  discounted_payback_period tma_default [100; 50; -400; -10] = Some PInf.
Proof.
  split; apply no_outlay_before_inflows_never_pays_back;
    try reflexivity.
  - left. reflexivity.
  - right. exists 2%nat. intros k.
    do 4 (destruct k as [|k]; [split; intros H; try lia; vm_compute; discriminate|]).
    split; intros H; [lia|]. destruct k; simpl; apply Qle_refl.
Defined.

(** ** The two ends of the range of rates *)

Lemma inf_of_sign_comp (a b : Q) : a == b -> inf_of_sign a = inf_of_sign b.
Proof.
  intros H. unfold inf_of_sign.
  assert (E1 : Qlt_bool 0 a = Qlt_bool 0 b) by now rewrite H.
  assert (E2 : Qlt_bool a 0 = Qlt_bool b 0) by now rewrite H.
  now rewrite E1, E2.
Qed.

(** X14.  At the rate -1 nothing is raised: every flow after period 0 is
    divided by 0 and discounts to +infinity when it is positive, to
    -infinity when it is negative and to NaN when it is 0. *)
Theorem rate_minus_one_discounts_to_infinity
        (rate : Q) (series : list Q) (k : nat) :
  1 + rate == 0 -> (1 <= k)%nat -> (k < length series)%nat ->
  nth_error (DiscountedCashFlows rate series) k
  = Some (inf_of_sign (nth k series 0)).
Proof.
  intros Hr Hk Hlt. unfold DiscountedCashFlows, npf.pv, index.
  rewrite nth_error_map.
  assert (E : nth_error (combine (seq 0 (length series)) (map Qopp series)) k
              = Some (k, - nth k series 0)).
  { rewrite (nth_error_nth' _ (0%nat, - 0)).
    - rewrite combine_nth by now rewrite length_seq, length_map.
      rewrite seq_nth by exact Hlt. rewrite map_nth. reflexivity.
    - rewrite length_combine, length_seq, length_map. lia. }
  rewrite E. simpl. f_equal. unfold npf.pv1, fdiv.
  assert (Hz : Qeq_bool ((1 + rate) ^ Z.of_nat k) 0 = true).
  { apply Qeq_bool_iff. rewrite Hr. apply Qpower_0. lia. }
  rewrite Hz. apply inf_of_sign_comp.
  match goal with
  | |- context [if ?c then ?a else ?b] => generalize (if c then a else b); intro
  end.
  ring.
Qed.

Lemma rate_minus_one_discounts_to_infinity_witness :
  nth_error (DiscountedCashFlows (-1) (col_A data)) 2
  = Some (inf_of_sign (nth 2 (col_A data) 0)).
Proof.
  apply rate_minus_one_discounts_to_infinity.
  - reflexivity.
  - lia.
  - simpl. lia.
Defined.

Lemma fold_left_Qplus_ext (g : nat * Q -> Q) (s : list Q) :
  (forall t v, g (t, v) == v) ->
  forall a acc acc',
    acc == acc' ->
    fold_left Qplus (map g (combine (seq a (length s)) s)) acc
    == fold_left Qplus s acc'.
Proof.
  intros Hg. induction s as [|x s IH]; intros a acc acc' Hacc; simpl.
  - exact Hacc.
  - apply IH. rewrite Hg, Hacc. reflexivity.
Qed.

(** X15.  At the rate 0 nothing is discounted: every row of
    DiscountedCashFlows is the flow of its period, and [npf.npv] returns
    the plain sum of the flows. *)
Theorem rate_zero_discounts_nothing (series : list Q) :
  (forall t, (t < length series)%nat ->
             exists d, nth_error (DiscountedCashFlows 0 series) t = Some (Fin d)
                       /\ d == nth t series 0) /\
  (exists w, npf.npv 0 series = Fin w /\ w == fold_left Qplus series 0).
Proof.
  assert (Hr : ~ 1 + 0 == 0) by discriminate.
  split.
  - intros t Ht. destruct (Discounted_row 0 series t Hr Ht) as [d [Hd Heq]].
    exists d. split; [exact Hd|]. rewrite Heq. unfold Spec.dcf.
    change (1 + 0) with 1. rewrite Qpower_1. field.
  - destruct (npv_finite 0 series Hr) as [w [Hw Heq]].
    exists w. split; [exact Hw|].
    rewrite Heq, <- direct_summation. unfold index.
    apply fold_left_Qplus_ext; [|reflexivity].
    intros t v. change (1 + 0) with 1. rewrite Qpower_1. field.
Qed.

(** X2.  When discounted_payback_period reaches the interpolation, the
    discounted flow it divides by is not zero, whatever the rate and the
    series. *)
Theorem interpolation_never_divides_by_zero
        (rate : Q) (series : list Q) (y : nat) (ys : list nat) (d : fval) :
  negative_cash_flows rate series = y :: ys ->
  index_max y ys <> Nat.pred (length series) ->
  loc (DiscountedCashFlows rate series) (index_max y ys + 1) = Some d ->
  ~ feq d (Fin 0).
Proof. exact (interpolation_divisor_nonzero rate series y ys d). Qed.

Lemma interpolation_never_divides_by_zero_witness :
  exists d,
    loc (DiscountedCashFlows tma_default (col_A data)) 3 = Some d /\
    ~ feq d (Fin 0).
Proof.
  eexists. split; [reflexivity|].
  apply (interpolation_never_divides_by_zero
           tma_default (col_A data) 0%nat [1%nat; 2%nat]).
  - reflexivity.
  - simpl. lia.
  - reflexivity.
Defined.

(** ** Inflows after the end of the series *)

Lemma dcf_app (r : Q) (s l : list Q) (t : nat) :
  (t < length s)%nat -> Spec.dcf r (s ++ l) t = Spec.dcf r s t.
Proof. intros Ht. unfold Spec.dcf. now rewrite app_nth1. Qed.

Lemma last_negative_app (r : Q) (s l : list Q) (t : nat) :
  -1 < r -> (forall x, In x l -> 0 <= x) ->
  (S t < length s)%nat ->
  Spec.last_negative r s t -> Spec.last_negative r (s ++ l) t.
Proof.
  intros Hr Hl Hmid (Ht & Hneg & Hafter). unfold Spec.last_negative.
  rewrite length_app. split; [lia|]. split.
  - rewrite cum_app by exact Ht. exact Hneg.
  - intros u [Hu1 Hu2].
    destruct (Nat.lt_ge_cases u (length s)) as [Hin | Hout].
    + rewrite cum_app by exact Hin. apply Hafter. lia.
    + assert (Hlast : 0 <= Spec.cum r (s ++ l) (Nat.pred (length s))).
      { rewrite cum_app by lia. apply Hafter. lia. }
      pose proof (cum_tail_nonneg r (s ++ l) (Nat.pred (length s)) u Hr
                    ltac:(lia)) as Htail.
      assert (Spec.cum r (s ++ l) (Nat.pred (length s))
              <= Spec.cum r (s ++ l) u).
      { apply Htail. intros k Hk. rewrite app_nth2 by lia.
        destruct (Nat.lt_ge_cases (k - length s) (length l)) as [Hkl | Hkl].
        - apply Hl. apply nth_In. exact Hkl.
        - rewrite nth_overflow by exact Hkl. apply Qle_refl. }
      lra.
Qed.

(** X8.  For a rate above -1, appending periods whose flows are all
    non-negative to a series with a finite discounted payback leaves the
    payback unchanged. *)
Theorem later_inflows_keep_the_payback
        (rate : Q) (series later : list Q) (v : Q) :
  -1 < rate ->
  (forall x, In x later -> 0 <= x) ->
  discounted_payback_period rate series = Some (Fin v) ->
  exists w,
    discounted_payback_period rate (series ++ later) = Some (Fin w) /\
    w == v.
Proof.
  intros Hr Hl Hv.
  assert (Hr' : ~ 1 + rate == 0) by (intro E; lra).
  pose proof (discounted_payback_period_outcome rate series Hr') as H1.
  rewrite Hv in H1.
  pose proof (discounted_payback_period_outcome rate (series ++ later) Hr')
    as H2.
  assert (H3 : payback_outcome rate (series ++ later) (Some (Fin v))).
  { inversion H1 as [| | t v' Hlast Hmid Heq]; subst.
    apply (interpolated _ _ t).
    - apply last_negative_app; assumption.
    - rewrite length_app. lia.
    - rewrite cum_app by lia. rewrite dcf_app by exact Hmid. exact Heq. }
  destruct (outcome_unique _ _ _ _ H3 H2) as (p & q & Hp & Hq & Hpq).
  injection Hp as <-. rewrite Hq.
  destruct q as [w| | |]; simpl in Hpq; try contradiction.
  exists w. split; [reflexivity|]. symmetry. exact Hpq.
Qed.

Lemma later_inflows_keep_the_payback_witness :
  exists w,
    discounted_payback_period tma_default (col_A data ++ [0; 250])
    = Some (Fin w) /\
    w == 3130512000000000000 # 1331000000000000000.
Proof.
  apply later_inflows_keep_the_payback.
  - reflexivity.
  - intros x [<- | [<- | []]]; discriminate.
  - vm_compute. reflexivity.
Defined.

Lemma rate_zero_discounts_nothing_witness :
  exists d, nth_error (DiscountedCashFlows 0 (col_A data)) 2 = Some (Fin d)
            /\ d == nth 2 (col_A data) 0.
Proof.
  apply (proj1 (rate_zero_discounts_nothing (col_A data))). simpl. lia.
Defined.
